(** * Magnum: [Math::BoolVector] and [MeshTools::compressIndices]

    A shallow embedding of two leaf utilities of the Magnum graphics
    engine, together with the properties their documentation promises.

    - [src/Math/BoolVector.h]: a bit vector of compile-time length
      [size], packed into [DataSize] unsigned 8-bit segments.
    - [src/MeshTools/CompressIndices.cpp]: repacking of a sequence of
      32-bit mesh indices into the narrowest of the 8/16/32-bit unsigned
      integer types able to hold the largest index.

    Conventions.  An [UnsignedByte] is a [Z] in [[0, 256)]; every
    conversion back to that type after an [int] computation is written
    out ([to_UnsignedByte]).  A [std::size_t] that only counts or
    indexes is a [nat].  Reading or writing an array outside its bounds
    is undefined behaviour in C++; where an index comes from the caller
    ([operator[]], [set]) the embedding returns [None] there. *)

From Stdlib Require Import ZArith Lia Bool.
From Stdlib Require Ascii String DecimalString.
From stdpp Require Import base option list.
Import Ascii.AsciiSyntax String.StringSyntax.
Delimit Scope char_scope with char.
Delimit Scope string_scope with string.

(** ** Integer types *)

Definition to_UnsignedByte (x : Z) : Z := (x mod 2 ^ 8)%Z.
Definition to_UnsignedShort (x : Z) : Z := (x mod 2 ^ 16)%Z.
Definition to_UnsignedInt (x : Z) : Z := (x mod 2 ^ 32)%Z.

Definition is_UnsignedByte (x : Z) : Prop := (0 <= x < 2 ^ 8)%Z.
Definition is_UnsignedInt (x : Z) : Prop := (0 <= x < 2 ^ 32)%Z.

(** ** [Math::BoolVector<size>] *)

Module BoolVector.

(** [UnsignedByte _data[(size-1)/8+1]] *)
Record t : Type := mk { _data : list Z }.

(** [_data[i]] for an index the class computes itself (always inside
    the array for a vector that satisfies [wf]). *)
Definition segment (v : t) (i : nat) : Z := default 0%Z (_data v !! i).

Section Class.

(** The template parameter; [static_assert(size != 0)] is the
    hypothesis [size <> 0] of the theorems. *)
Variable size : nat.

Definition DataSize : nat := (size - 1) / 8 + 1.

Definition FullSegmentMask : Z := 255.
Definition LastSegmentMask : Z :=
  to_UnsignedByte (Z.shiftl 1 (Z.of_nat (size mod 8)) - 1).

(** Class invariant of the representation: the array has [DataSize]
    elements, each an [UnsignedByte]. *)
Definition wf (v : t) : Prop :=
  length (_data v) = DataSize /\ Forall is_UnsignedByte (_data v).

(** [BoolVector(): _data() {}] *)
Definition zero : t := mk (replicate DataSize 0%Z).

(** [BoolVector(UnsignedByte first, T... next)], enabled only when
    [sizeof...(T)+1 == DataSize]. *)
Definition from_segments (segments : list Z) : option t :=
  if decide (length segments = DataSize)
  then Some (mk (to_UnsignedByte <$> segments))
  else None.

(** [BoolVector(Sequence<sequence...>, UnsignedByte value):
    _data{repeat(value, sequence)...}] *)
Definition from_repeated (value : Z) : t :=
  mk ((fun _ => to_UnsignedByte value) <$> seq 0 DataSize).

(** [explicit BoolVector(T value)], enabled only when [T] is [bool] and
    [size != 1]. *)
Definition fill (value : bool) : option t :=
  if decide (size <> 1)
  then Some (from_repeated (if value then FullSegmentMask else 0%Z))
  else None.

(** [operator[]]: [(_data[i/8] >> i%8) & 0x01] *)
Definition get (v : t) (i : nat) : option bool :=
  s ← _data v !! (i / 8);
  Some (negb (Z.land (Z.shiftr s (Z.of_nat (i mod 8))) 1 =? 0)%Z).

(** [set]: [_data[i/8] |= ((value & 0x01) << i%8)] *)
Definition set (v : t) (i : nat) (value : bool) : option t :=
  s ← _data v !! (i / 8);
  Some (mk (<[i / 8 :=
               to_UnsignedByte
                 (Z.lor s (Z.shiftl (Z.land (Z.b2z value) 1)
                                    (Z.of_nat (i mod 8))))]> (_data v))).

(** [operator==] *)
Definition operator_eq (a b : t) : bool :=
  if existsb (fun i => negb (segment a i =? segment b i)%Z)
             (seq 0 (size / 8))
  then false
  else if negb (size mod 8 =? 0)
          && negb (Z.land (segment a (DataSize - 1)) LastSegmentMask
                   =? Z.land (segment b (DataSize - 1)) LastSegmentMask)%Z
  then false
  else true.

(** [operator!=] *)
Definition operator_ne (a b : t) : bool := negb (operator_eq a b).

(** [all()] *)
Definition all (v : t) : bool :=
  if existsb (fun i => negb (segment v i =? FullSegmentMask)%Z)
             (seq 0 (size / 8))
  then false
  else if negb (size mod 8 =? 0)
          && negb (Z.land (segment v (DataSize - 1)) LastSegmentMask
                   =? LastSegmentMask)%Z
  then false
  else true.

(** [none()] *)
Definition none (v : t) : bool :=
  if existsb (fun i => negb (segment v i =? 0)%Z) (seq 0 (size / 8))
  then false
  else if negb (size mod 8 =? 0)
          && negb (Z.land (segment v (DataSize - 1)) LastSegmentMask =? 0)%Z
  then false
  else true.

(** [any()] *)
Definition any (v : t) : bool := negb (none v).

(** The loop [for(i = 0; i != DataSize; ++i) d[i] = f(i, d[i])] that the
    bitwise operators share, run on the array [d] in place. *)
Definition for_each_segment (f : nat -> Z -> Z) (d : list Z) : list Z :=
  foldl (fun d i => <[i := to_UnsignedByte (f i (default 0%Z (d !! i)))]> d)
        d (seq 0 DataSize).

(** [operator~]: [out._data[i] = ~_data[i]] on a zero-filled [out] *)
Definition operator_not (v : t) : t :=
  mk (for_each_segment (fun i _ => Z.lnot (segment v i)) (_data zero)).

(** [operator&=], [operator|=], [operator^=] *)
Definition operator_and_assign (self other : t) : t :=
  mk (for_each_segment (fun i s => Z.land s (segment other i)) (_data self)).
Definition operator_or_assign (self other : t) : t :=
  mk (for_each_segment (fun i s => Z.lor s (segment other i)) (_data self)).
Definition operator_xor_assign (self other : t) : t :=
  mk (for_each_segment (fun i s => Z.lxor s (segment other i)) (_data self)).

(** [operator&], [operator|], [operator^]:
    the in-place operator applied to a copy of [this] *)
Definition operator_and (self other : t) : t :=
  operator_and_assign (mk (_data self)) other.
Definition operator_or (self other : t) : t :=
  operator_or_assign (mk (_data self)) other.
Definition operator_xor (self other : t) : t :=
  operator_xor_assign (mk (_data self)) other.

End Class.

(** Bit [i] as the representation holds it: bit [i%8] of segment [i/8].
    [get_bit] shows that [operator[]] returns it for every valid index;
    the proofs below reason about it. *)
Definition bit (v : t) (i : nat) : bool :=
  Z.testbit (segment v (i / 8)) (Z.of_nat (i mod 8)).

End BoolVector.

(** ** [Corrade::Utility::Debug] and the output of a [BoolVector] *)

Module Debug.

(** A [Debug] stream as the operators of the sources use it: the flag
    [SpaceAfterEachValue] and the values streamed so far, each with
    the flag in force when it was streamed (with the flag off the
    stream prints a value right after the one before). *)
Record t : Type :=
  mk { SpaceAfterEachValue : bool; output : list (bool * String.string) }.

(** [debug << value] *)
Definition write (debug : t) (value : String.string) : t :=
  mk (SpaceAfterEachValue debug)
     (output debug ++ [(SpaceAfterEachValue debug, value)]).

(** [debug.setFlag(Debug::SpaceAfterEachValue, value)] *)
Definition setFlag (debug : t) (value : bool) : t := mk value (output debug).

End Debug.

#[local] Open Scope string_scope.

(** [operator<<(Debug, const BoolVector<size>&)].  The loop runs on an
    optional stream: [None] once a bit was read outside the array. *)
Definition BoolVector_operator_shl (size : nat) (debug : Debug.t)
    (value : BoolVector.t) : option Debug.t :=
  let debug := Debug.write debug "BoolVector(" in
  let debug := Debug.setFlag debug false in
  debug ← foldl (fun debug i =>
                   debug ← debug;
                   let debug :=
                     if negb (i =? 0) && (i mod 8 =? 0)
                     then Debug.write debug " " else debug in
                   bit ← BoolVector.get value i;
                   Some (Debug.write debug (if bit : bool then "1" else "0")))
                (Some debug) (seq 0 size);
  let debug := Debug.write debug ")" in
  Some (Debug.setFlag debug true).

#[local] Close Scope string_scope.

(** ** [Math::log] *)

Module Math.

(** Modelled from the spec: the loop of [Math::log(base, number)].  The
    function is declared in [Math/Functions.h], which is not among the
    sources; only its call in [compressIndices] is.  The spec describes
    it as "an integer log in base 256", [k = floor(log_256(max))], "the
    number of full 256-multiples needed to represent max": the number of
    times [number] can be divided by [base] before nothing is left.
    [log_floor] shows that this is the floor of the logarithm. *)
Fixpoint log_loop (fuel : nat) (base number : Z) : Z :=
  match fuel with
  | O => 0
  | S fuel =>
      if (number / base =? 0)%Z then 0%Z
      else (1 + log_loop fuel base (number / base))%Z
  end.

(** Modelled from the spec: [Math::log(base, number)], the integer
    logarithm.  Every division by a base of at least two removes a
    binary digit, so one more round than [number] has binary digits is
    always enough for the loop to finish. *)
Definition log (base number : Z) : Z :=
  log_loop (S (Z.to_nat (Z.log2 number))) base number.

End Math.

(** ** [MeshTools::compressIndices] *)

Module Mesh.

(** [Mesh::IndexType], by the three enumerators [indexType<T>()]
    returns. *)
Inductive IndexType : Set := UnsignedByte | UnsignedShort | UnsignedInt.

End Mesh.

Module MeshTools.

(** The three instantiations of the template parameter [T]. *)
Inductive GLtype : Set := GLubyte | GLushort | GLuint.

Definition sizeof (T : GLtype) : nat :=
  match T with GLubyte => 1 | GLushort => 2 | GLuint => 4 end.

Definition static_cast (T : GLtype) (x : Z) : Z :=
  match T with
  | GLubyte => to_UnsignedByte x
  | GLushort => to_UnsignedShort x
  | GLuint => to_UnsignedInt x
  end.

(** [indexType<T>()] *)
Definition indexType (T : GLtype) : Mesh.IndexType :=
  match T with
  | GLubyte => Mesh.UnsignedByte
  | GLushort => Mesh.UnsignedShort
  | GLuint => Mesh.UnsignedInt
  end.

(** The order in which the platform stores the bytes of an integer;
    [std::memcpy] of an object copies them in that order. *)
Inductive ByteOrder : Set := LittleEndian | BigEndian.

(** The [n] low bytes of [x], least significant first, and the value a
    run of bytes stands for in that order. *)
Fixpoint le_bytes (n : nat) (x : Z) : list Z :=
  match n with
  | O => []
  | S n => (x mod 256)%Z :: le_bytes n (x / 256)%Z
  end.

Fixpoint le_value (bytes : list Z) : Z :=
  match bytes with
  | [] => 0
  | b :: bytes => (b + 256 * le_value bytes)%Z
  end.

(** What went wrong when no result is returned. *)
Inductive Failure : Set :=
| DereferencedEnd
    (** [*std::max_element(begin, end)] on an empty range dereferences
        [end], and the vector owns no storage there to read from *)
| NoTypeAbleToIndex (size : Z)
    (** [CORRADE_ASSERT(false, "... no type able to index ...")] *).

Section Platform.

Variable order : ByteOrder.

(** The bytes of an object of type [T] holding [x], in memory order. *)
Definition object_representation (T : GLtype) (x : Z) : list Z :=
  match order with
  | LittleEndian => le_bytes (sizeof T) x
  | BigEndian => rev (le_bytes (sizeof T) x)
  end.

(** [std::memcpy(buffer+offset, &index, sizeof(T))].  The loop of
    [compress] only writes inside the array it allocated; a write past
    its end, undefined in C++, does not arise. *)
Definition memcpy (buffer : list Z) (offset : nat) (src : list Z) : list Z :=
  list_inserts offset src buffer.

(** [compress<T>]: a new array of [indices.size()*sizeof(T)] bytes (its
    initial content is indeterminate; zeros stand for it here, and
    [compress_buffer] shows that none of it survives), filled by the
    loop. *)
Definition compress (T : GLtype) (indices : list Z)
  : nat * Mesh.IndexType * list Z :=
  let buffer :=
    foldl (fun buffer i =>
             let index := static_cast T (default 0%Z (indices !! i)) in
             memcpy buffer (i * sizeof T) (object_representation T index))
          (replicate (length indices * sizeof T) 0%Z)
          (seq 0 (length indices)) in
  (length indices, indexType T, buffer).

(** The content of that buffer once the loop is over, in closed form
    ([compress_buffer]): the object representations of the narrowed
    indices, one after the other. *)
Definition elements (T : GLtype) (indices : list Z) : list Z :=
  concat ((fun x => object_representation T (static_cast T x)) <$> indices).

(** [std::max_element]: the first greatest element; [None] stands for
    the [end] iterator it returns on an empty range. *)
Definition max_element (l : list Z) : option Z :=
  match l with
  | [] => None
  | first :: rest =>
      Some (foldl (fun largest x => if (largest <? x)%Z then x else largest)
                  first rest)
  end.

(** [compressIndices(const std::vector<std::uint32_t>&)], for a vector
    whose storage holds its elements and nothing behind them.  The
    function makes no test for an empty sequence; what it does on a
    vector with spare storage is [compressIndices_vector] below, which
    agrees with this one whenever there is an element
    ([compressIndices_vector_elements]). *)
Definition compressIndices (indices : list Z)
  : Failure + nat * Mesh.IndexType * list Z :=
  match max_element indices with
  | None => inl DereferencedEnd
  | Some size =>
      match Math.log 256 (to_UnsignedInt size) with
      | 0%Z => inr (compress GLubyte indices)
      | 1%Z => inr (compress GLushort indices)
      | 2%Z | 3%Z => inr (compress GLuint indices)
      | _ => inl (NoTypeAbleToIndex size)
      end
  end.

(** [std::vector<std::uint32_t>] with the storage it owns: [capacity()]
    32-bit values, of which the first [size()] are the elements; what
    the storage holds behind them is left over from earlier use. *)
Record vector : Type := mk_vector { vec_storage : list Z; vec_size : nat }.

(** [compressIndices(const std::vector<std::uint32_t>&)] on such a
    vector.  [std::max_element] returns [end()] for an empty range and
    the function dereferences what it returns without a test: the read
    of [*end()] yields the value the storage holds behind the last
    element, if the storage reaches that far. *)
Definition compressIndices_vector (indices : vector)
  : Failure + nat * Mesh.IndexType * list Z :=
  let elements := take (vec_size indices) (vec_storage indices) in
  let dereferenced :=
    match max_element elements with
    | Some greatest => Some greatest
    | None => vec_storage indices !! vec_size indices
    end in
  match dereferenced with
  | None => inl DereferencedEnd
  | Some size =>
      match Math.log 256 (to_UnsignedInt size) with
      | 0%Z => inr (compress GLubyte elements)
      | 1%Z => inr (compress GLushort elements)
      | 2%Z | 3%Z => inr (compress GLuint elements)
      | _ => inl (NoTypeAbleToIndex size)
      end
  end.

(** Reading element [i] of a buffer of [width]-byte unsigned integers
    back, the way the platform stored them:
    [std::memcpy(&index, buffer+i*width, width)]. *)
Definition read_element (width : nat) (buffer : list Z) (i : nat) : Z :=
  let bytes := take width (drop (i * width) buffer) in
  match order with
  | LittleEndian => le_value bytes
  | BigEndian => le_value (rev bytes)
  end.

End Platform.

(** Modelled from the spec: [Mesh::indexSize], defined with [Mesh]
    outside the sources; "elementWidth (one of 1, 2, 4 bytes)", the
    size of the integer type an [IndexType] names. *)
Definition indexSize (type : Mesh.IndexType) : nat :=
  match type with
  | Mesh.UnsignedByte => 1
  | Mesh.UnsignedShort => 2
  | Mesh.UnsignedInt => 4
  end.

(** The calls the second overload makes on the mesh and the buffer it
    is given, in order.  The classes [Mesh] and [Buffer] are outside
    the sources, so a call is recorded with its arguments: the array a
    pointer argument points to is recorded by its content. *)
Inductive Call (Usage : Type) : Type :=
| Mesh_setIndexCount (count : nat)
| Mesh_setIndexBuffer (offset : nat) (type : Mesh.IndexType)
| Buffer_setData (size : nat) (data : list Z) (usage : Usage)
| delete_array (data : list Z).

Arguments Mesh_setIndexCount {Usage} count.
Arguments Mesh_setIndexBuffer {Usage} offset type.
Arguments Buffer_setData {Usage} size data usage.
Arguments delete_array {Usage} data.

(** [compressIndices(Mesh*, Buffer*, Buffer::Usage,
    const std::vector<std::uint32_t>&)] *)
Definition compressIndices_mesh {Usage : Type} (order : ByteOrder)
    (usage : Usage) (indices : list Z) : Failure + list (Call Usage) :=
  match compressIndices order indices with
  | inl failure => inl failure
  | inr (indexCount, indexType, data) =>
      inr [ Mesh_setIndexCount (length indices);
            Mesh_setIndexBuffer 0 indexType;
            Buffer_setData (indexCount * indexSize indexType) data usage;
            delete_array data ]
  end.

End MeshTools.

(** ** [Shader]

    The embedding follows the desktop OpenGL build ([MAGNUM_TARGET_GLES]
    not defined) on a platform with [std::to_string]. *)

Module Shader.

#[local] Open Scope string_scope.

(** [Shader::Type] *)
Inductive Type' : Set :=
| Vertex | Geometry | TessellationControl | TessellationEvaluation
| Compute | Fragment.

(** [Version]: the enumerators the constructor has a case for, and
    [Unlisted] for any other value of the enumeration. *)
Inductive Version : Set :=
| GL210 | GL300 | GL310 | GL320 | GL330 | GL400 | GL410 | GL420 | GL430
| GL440 | Version_None | Unlisted.

(** The line feed that ends a directive. *)
Definition LF : String.string :=
  String.String (Ascii.ascii_of_nat 10) String.EmptyString.

(** [std::to_string] of a [std::size_t]: its decimal digits. *)
Definition to_string (n : nat) : String.string :=
  DecimalString.NilZero.string_of_uint (Nat.to_uint n).

(** [shaderName] *)
Definition shaderName (type : Type') : String.string :=
  match type with
  | Vertex => "vertex"
  | Geometry => "geometry"
  | TessellationControl => "tessellation control"
  | TessellationEvaluation => "tessellation evaluation"
  | Compute => "compute"
  | Fragment => "fragment"
  end.

(** [typeToIndex] *)
Definition typeToIndex (type : Type') : nat :=
  match type with
  | Vertex => 0
  | Fragment => 1
  | Geometry => 2
  | TessellationControl => 3
  | TessellationEvaluation => 4
  | Compute => 5
  end.

(** The members [_type], [_id] and [_sources]. *)
Record t : Type := mk { _type : Type'; _id : Z; _sources : list String.string }.

Definition push_back (shader : t) (source : String.string) : t :=
  mk (_type shader) (_id shader) (_sources shader ++ [source])%list.

(** [Shader::Shader(version, type)]; [id] is the name [glCreateShader]
    returned.  [None] is the failed assertion "unsupported version". *)
Definition Shader (id : Z) (version : Version) (type : Type') : option t :=
  let shader := mk type id [] in
  match version with
  | GL210 => Some (push_back shader (String.append "#version 120" LF))
  | GL300 => Some (push_back shader (String.append "#version 130" LF))
  | GL310 => Some (push_back shader (String.append "#version 140" LF))
  | GL320 => Some (push_back shader (String.append "#version 150" LF))
  | GL330 => Some (push_back shader (String.append "#version 330" LF))
  | GL400 => Some (push_back shader (String.append "#version 400" LF))
  | GL410 => Some (push_back shader (String.append "#version 410" LF))
  | GL420 => Some (push_back shader (String.append "#version 420" LF))
  | GL430 => Some (push_back shader (String.append "#version 430" LF))
  | GL440 => Some (push_back shader (String.append "#version 440" LF))
  | Version_None => Some shader
  | Unlisted => None
  end.

(** [Shader::sources()] *)
Definition sources (shader : t) : list String.string := _sources shader.

(** [Shader::addSource] *)
Definition addSource (shader : t) (source : String.string) : t :=
  if negb (String.length source =? 0)
  then
    let shader :=
      push_back shader
        (String.append "#line 1 "
           (String.append (to_string ((length (_sources shader) + 1) / 2)) LF))
    in push_back shader source
  else shader.

(** The test [shader._sources.size() > 1] that [Shader::compile] asserts
    for each shader before anything else ("no files added"). *)
Definition has_files (shader : t) : bool := 1 <? length (_sources shader).

(** *** Implementation limits *)

(** The extensions [isTypeSupported] asks the context about. *)
Inductive Extension : Set :=
| geometry_shader4 | tessellation_shader | compute_shader.

(** The entries of the table [what[]] in [maxTextureImageUnits]. *)
Inductive GLenum : Set :=
| GL_MAX_VERTEX_TEXTURE_IMAGE_UNITS
| GL_MAX_TEXTURE_IMAGE_UNITS
| GL_MAX_GEOMETRY_TEXTURE_IMAGE_UNITS
| GL_MAX_TESS_CONTROL_TEXTURE_IMAGE_UNITS
| GL_MAX_TESS_EVALUATION_TEXTURE_IMAGE_UNITS
| GL_MAX_COMPUTE_TEXTURE_IMAGE_UNITS.

Definition what : list GLenum :=
  [ GL_MAX_VERTEX_TEXTURE_IMAGE_UNITS;
    GL_MAX_TEXTURE_IMAGE_UNITS;
    GL_MAX_GEOMETRY_TEXTURE_IMAGE_UNITS;
    GL_MAX_TESS_CONTROL_TEXTURE_IMAGE_UNITS;
    GL_MAX_TESS_EVALUATION_TEXTURE_IMAGE_UNITS;
    GL_MAX_COMPUTE_TEXTURE_IMAGE_UNITS ].

Section Context.

(** [Context::current()->isExtensionSupported<E>()], and the value the
    driver stores for [glGetIntegerv(pname, &value)]. *)
Variable isExtensionSupported : Extension -> bool.
Variable glGetIntegerv : GLenum -> Z.

(** [isTypeSupported] *)
Definition isTypeSupported (type : Type') : bool :=
  if (match type with Geometry => true | _ => false end)
     && negb (isExtensionSupported geometry_shader4)
  then false
  else if (match type with
           | TessellationControl | TessellationEvaluation => true
           | _ => false
           end)
          && negb (isExtensionSupported tessellation_shader)
  then false
  else if (match type with Compute => true | _ => false end)
          && negb (isExtensionSupported compute_shader)
  then false
  else true.

(** [Shader::maxTextureImageUnits(type)], run on the array
    [state().shader->maxTextureImageUnits]: the value returned, the
    array afterwards and the queries sent to the driver.  [None] is an
    access outside the array or the table. *)
Definition maxTextureImageUnits (cache : list Z) (type : Type')
  : option (Z * list Z * list GLenum) :=
  if negb (isTypeSupported type) then Some (0%Z, cache, [])
  else
    let index := typeToIndex type in
    value ← cache !! index;
    if (value =? 0)%Z
    then pname ← what !! index;
         Some (glGetIntegerv pname, <[index := glGetIntegerv pname]> cache,
               [pname])
    else Some (value, cache, []).

End Context.

(** *** [Shader::compile] *)

#[local] Infix "+:+" := String.append (at level 60, right associativity).

(** What [Shader::compile] does to the outside, in order: the calls
    that change the state of the driver, with the entries of the
    arrays [pointers] and [sizes] the driver is told to read (an entry
    never written is [None]), and the messages printed. *)
Inductive Event : Type :=
| glShaderSource (shader : Z) (count : nat)
    (strings : list (option String.string)) (lengths : list (option Z))
| glCompileShader (shader : Z)
| Error (text : String.string)
| Warning (text : String.string).

(** How [Shader::compile] ends: it returns [allSuccess]; or the
    assertion "no files added" fails; or [std::string(logLength, '\0')]
    throws [std::length_error]; or an array was written outside its
    bounds, after which nothing is defined. *)
Inductive Outcome : Set :=
| Returned (allSuccess : bool)
| AssertionFailed
| LengthError
| OutsideArray.

(** The conversion of a size to [GLint]: the value modulo 2^32, read as
    a signed 32-bit number. *)
Definition to_GLint (x : Z) : Z := ((x + 2 ^ 31) mod 2 ^ 32 - 2 ^ 31)%Z.

(** [array[i] = x]; [None] is a write outside the array. *)
Definition store {A : Type} (array : list A) (i : nat) (x : A)
  : option (list A) :=
  if decide (i < length array) then Some (<[i := x]> array) else None.

(** The first loop: the assertion "no files added" ([None]) and
    [maxSourceCount]. *)
Fixpoint count_sources (shaders : list t) (maxSourceCount : nat)
  : option nat :=
  match shaders with
  | [] => Some maxSourceCount
  | shader :: shaders =>
      if has_files shader
      then count_sources shaders
             (Nat.max (length (_sources shader)) maxSourceCount)
      else None
  end.

(** The inner loop of the upload, from index [i] on:
    [pointers[i] = _sources[i].data(); sizes[i] = _sources[i].size()].
    A pointer is recorded by the string it points to; the size is
    converted to the [GLint] the array holds. *)
Fixpoint collect (sources : list String.string) (i : nat)
    (pointers : list (option String.string)) (sizes : list (option Z))
  : option (list (option String.string) * list (option Z)) :=
  match sources with
  | [] => Some (pointers, sizes)
  | source :: sources =>
      pointers ← store pointers i (Some source);
      sizes ← store sizes i
                (Some (to_GLint (Z.of_nat (String.length source))));
      collect sources (S i) pointers sizes
  end.

(** The upload loop; the two arrays are shared by all shaders. *)
Fixpoint upload (shaders : list t)
    (pointers : list (option String.string)) (sizes : list (option Z))
  : option (list Event) :=
  match shaders with
  | [] => Some []
  | shader :: shaders =>
      arrays ← collect (_sources shader) 0 pointers sizes;
      let count := length (_sources shader) in
      events ← upload shaders arrays.1 arrays.2;
      Some (glShaderSource (_id shader) count
              (take count arrays.1) (take count arrays.2) :: events)
  end.

(** [std::string(n, '\0')] *)
Fixpoint NULs (n : nat) : String.string :=
  match n with
  | O => ""
  | S n => String.String Ascii.zero (NULs n)
  end.

(** [glGetShaderInfoLog(shader, bufSize, nullptr, buffer)]: the driver
    copies the log it holds into the buffer, as much of it as fits
    before the terminating NUL. *)
Fixpoint store_log (log buffer : String.string) : String.string :=
  match buffer with
  | String.EmptyString => ""
  | String.String _ String.EmptyString => String.String Ascii.zero ""
  | String.String _ buffer =>
      match log with
      | String.EmptyString => String.String Ascii.zero buffer
      | String.String c log => String.String c (store_log log buffer)
      end
  end.

(** [std::string::resize(n)] *)
Definition resize (s : String.string) (n : nat) : String.string :=
  String.substring 0 n (s +:+ NULs (n - String.length s)).

Section Driver.

(** What the driver answers for a shader name:
    [glGetShaderiv(shader, GL_COMPILE_STATUS, &success)],
    [glGetShaderiv(shader, GL_INFO_LOG_LENGTH, &logLength)], and the
    log it holds. *)
Variable COMPILE_STATUS : Z -> Z.
Variable INFO_LOG_LENGTH : Z -> Z.
Variable InfoLog : Z -> String.string.

(** The message of a shader; [None] is the exception
    [std::string(logLength, '\0')] throws for a negative length. *)
Definition info_message (shader : t) : option String.string :=
  let logLength := INFO_LOG_LENGTH (_id shader) in
  if (logLength <? 0)%Z then None
  else
    let message := NULs (Z.to_nat logLength) in
    let message :=
      if 1 <? String.length message
      then store_log (InfoLog (_id shader)) message
      else message in
    Some (resize message (Z.to_nat (Z.max logLength 1 - 1))).

(** The last loop, from shader number [i] on: how it ends, and the
    messages printed until then (a message is printed when its [Error]
    or [Warning] object goes out of scope at the end of the round). *)
Fixpoint report (count : nat) (shaders : list t) (i : nat)
    (allSuccess : bool) : Outcome * list Event :=
  match shaders with
  | [] => (Returned allSuccess, [])
  | shader :: shaders =>
      let success := COMPILE_STATUS (_id shader) in
      match info_message shader with
      | None => (LengthError, [])
      | Some message =>
          let number :=
            if negb (count =? 1) then " " +:+ to_string i else "" in
          let out :=
            if (success =? 0)%Z
            then [ Error ("Shader::compile(): compilation of "
                          +:+ shaderName (_type shader) +:+ " shader"
                          +:+ number
                          +:+ " failed with the following message:" +:+ LF
                          +:+ message) ]
            else if negb (String.length message =? 0)
            then [ Warning ("Shader::compile(): compilation of "
                            +:+ shaderName (_type shader) +:+ " shader"
                            +:+ number
                            +:+ " succeeded with the following message:"
                            +:+ LF +:+ message) ]
            else [] in
          let rest := report count shaders (S i)
                        (allSuccess && negb (success =? 0)%Z) in
          (rest.1, (out ++ rest.2)%list)
      end
  end.

(** [Shader::compile]: how it ends and what it did to the outside until
    then. *)
Definition compile (shaders : list t) : Outcome * list Event :=
  match count_sources shaders 0 with
  | None => (AssertionFailed, [])
  | Some maxSourceCount =>
      let pointers := replicate maxSourceCount None in
      let sizes := replicate maxSourceCount None in
      match upload shaders pointers sizes with
      | None => (OutsideArray, [])
      | Some uploads =>
          let compiles :=
            (fun shader => glCompileShader (_id shader)) <$> shaders in
          let result := report (length shaders) shaders 1 true in
          (result.1, (uploads ++ compiles ++ result.2)%list)
      end
  end.

End Driver.

End Shader.

(** * Properties *)

(** ** Bits of an unsigned byte *)

Section Bytes.

#[local] Open Scope Z_scope.

Lemma to_UnsignedByte_range x : is_UnsignedByte (to_UnsignedByte x).
Proof. unfold is_UnsignedByte, to_UnsignedByte. apply Z.mod_pos_bound. lia. Qed.

Lemma to_UnsignedByte_small x : is_UnsignedByte x -> to_UnsignedByte x = x.
Proof. unfold is_UnsignedByte, to_UnsignedByte. intros. apply Z.mod_small. lia. Qed.

Lemma to_UnsignedByte_testbit x (k : nat) :
  (k < 8)%nat -> Z.testbit (to_UnsignedByte x) (Z.of_nat k) = Z.testbit x (Z.of_nat k).
Proof. intros. unfold to_UnsignedByte. apply Z.mod_pow2_bits_low. lia. Qed.

Lemma UnsignedByte_high_bit x k :
  is_UnsignedByte x -> 8 <= k -> Z.testbit x k = false.
Proof.
  intros Hx Hk. rewrite <- (to_UnsignedByte_small x Hx).
  unfold to_UnsignedByte. apply Z.mod_pow2_bits_high. lia.
Qed.

(** [(s >> k) & 0x01], read as a [bool], is bit [k] of [s]. *)
Lemma shift_and_one s (k : nat) :
  negb (Z.land (Z.shiftr s (Z.of_nat k)) 1 =? 0) = Z.testbit s (Z.of_nat k).
Proof.
  change 1 with (Z.ones 1). rewrite Z.land_ones by lia.
  change (2 ^ 1) with 2. rewrite <- Z.bit0_mod.
  rewrite Z.shiftr_spec by lia. rewrite Z.add_0_l.
  destruct (Z.testbit s (Z.of_nat k)); reflexivity.
Qed.

(** Two bytes are equal exactly when their eight bits are. *)
Lemma UnsignedByte_eq_bits x y :
  is_UnsignedByte x -> is_UnsignedByte y ->
  x = y <-> (forall k : nat, (k < 8)%nat ->
             Z.testbit x (Z.of_nat k) = Z.testbit y (Z.of_nat k)).
Proof.
  intros Hx Hy. split; [intros -> ; reflexivity|].
  intros H. apply Z.bits_inj'. intros n Hn.
  destruct (Z_lt_le_dec n 8) as [Hlt|Hge].
  - specialize (H (Z.to_nat n)). rewrite Z2Nat.id in H by lia. apply H. lia.
  - rewrite !UnsignedByte_high_bit by assumption. reflexivity.
Qed.

(** [(1 << m) - 1] as an [UnsignedByte], for [m < 8], has the [m] low
    bits set. *)
Lemma low_mask_ones (m : nat) :
  (m < 8)%nat -> to_UnsignedByte (Z.shiftl 1 (Z.of_nat m) - 1) = Z.ones (Z.of_nat m).
Proof.
  intros Hm. rewrite Z.ones_equiv, Z.shiftl_1_l, <- Z.sub_1_r.
  apply to_UnsignedByte_small. unfold is_UnsignedByte.
  assert (0 < 2 ^ Z.of_nat m) by (apply Z.pow_pos_nonneg; lia).
  assert (2 ^ Z.of_nat m <= 2 ^ 7) by (apply Z.pow_le_mono_r; lia).
  change (2 ^ 7) with 128 in *. change (2 ^ 8) with 256. lia.
Qed.

(** Two bytes agree under the mask of the [m] low bits exactly when
    their [m] low bits agree. *)
Lemma masked_eq_bits x y (m : nat) :
  Z.land x (Z.ones (Z.of_nat m)) = Z.land y (Z.ones (Z.of_nat m)) <->
  (forall k : nat, (k < m)%nat ->
   Z.testbit x (Z.of_nat k) = Z.testbit y (Z.of_nat k)).
Proof.
  split.
  - intros H k Hk.
    apply (f_equal (fun z => Z.testbit z (Z.of_nat k))) in H.
    rewrite !Z.land_spec, Z.ones_spec_low, !andb_true_r in H by lia.
    exact H.
  - intros H. apply Z.bits_inj'. intros n Hn.
    rewrite !Z.land_spec, Z.testbit_ones_nonneg by lia.
    destruct (Z.ltb_spec n (Z.of_nat m)) as [Hlt|Hge].
    + rewrite !andb_true_r. specialize (H (Z.to_nat n)).
      rewrite Z2Nat.id in H by lia. apply H. lia.
    + rewrite !andb_false_r. reflexivity.
Qed.

End Bytes.

(** ** Segments and bits of a [BoolVector] *)

Ltac divmod8 n :=
  pose proof (Nat.div_mod_eq n 8);
  pose proof (Nat.mod_upper_bound n 8 ltac:(discriminate)).

Lemma existsb_seq_false (f : nat -> bool) (n : nat) :
  existsb f (seq 0 n) = false <-> (forall j, j < n -> f j = false).
Proof.
  rewrite <- not_true_iff_false, existsb_exists. split.
  - intros H j Hj. apply not_true_iff_false. intros Hf.
    apply H. exists j. split; [apply in_seq; lia | exact Hf].
  - intros H (j & Hin & Hf). apply in_seq in Hin.
    rewrite H in Hf by lia. discriminate.
Qed.

Section Segments.

Import BoolVector.

Variable size : nat.
Hypothesis size_nonzero : size <> 0.

Lemma DataSize_cases :
  (size mod 8 = 0 /\ DataSize size = size / 8) \/
  (size mod 8 <> 0 /\ DataSize size = size / 8 + 1).
Proof. unfold DataSize. divmod8 size. divmod8 (size - 1). lia. Qed.

Lemma index_in_DataSize i : i < size -> i / 8 < DataSize size.
Proof. intros. destruct DataSize_cases; divmod8 i; divmod8 size; lia. Qed.

Lemma index_cases i :
  i < size ->
  i / 8 < size / 8 \/ (i / 8 = size / 8 /\ i mod 8 < size mod 8).
Proof. intros. divmod8 i. divmod8 size. lia. Qed.

Lemma LastSegmentMask_ones :
  LastSegmentMask size = Z.ones (Z.of_nat (size mod 8)).
Proof. apply low_mask_ones. divmod8 size. lia. Qed.

Lemma segment_lookup v j :
  j < length (_data v) -> _data v !! j = Some (segment v j).
Proof.
  intros Hj. unfold segment.
  destruct (lookup_lt_is_Some_2 (_data v) j Hj) as [x ->]. reflexivity.
Qed.

Lemma segment_range v j : wf size v -> is_UnsignedByte (segment v j).
Proof.
  intros [_ Hr]. unfold segment.
  destruct (_data v !! j) as [x|] eqn:E; simpl.
  - rewrite Forall_lookup in Hr. exact (Hr j x E).
  - unfold is_UnsignedByte. lia.
Qed.

(** [operator[]] returns the bit of the representation. *)
Lemma get_bit v i : wf size v -> i < size -> get v i = Some (bit v i).
Proof.
  intros [Hl _] Hi. unfold get, bit.
  rewrite segment_lookup by (rewrite Hl; apply index_in_DataSize; exact Hi).
  simpl. rewrite shift_and_one. reflexivity.
Qed.

(** The shape [operator==], [all()] and [none()] share: the full
    segments are compared one by one, then the last one under the
    mask.  The comparison succeeds exactly when the two families of
    segments agree on the bits below [size]. *)
Lemma segments_agree (fa fb : nat -> Z) :
  (forall j, is_UnsignedByte (fa j)) ->
  (forall j, is_UnsignedByte (fb j)) ->
  (if existsb (fun i => negb (fa i =? fb i)%Z) (seq 0 (size / 8))
   then false
   else if negb (size mod 8 =? 0)
           && negb (Z.land (fa (DataSize size - 1)%nat) (LastSegmentMask size)
                    =? Z.land (fb (DataSize size - 1)%nat) (LastSegmentMask size))%Z
   then false
   else true) = true
  <->
  (forall i, i < size ->
     Z.testbit (fa (i / 8)) (Z.of_nat (i mod 8))
     = Z.testbit (fb (i / 8)) (Z.of_nat (i mod 8))).
Proof.
  intros Ha Hb.
  assert (Hfull : (forall j, j < size / 8 -> fa j = fb j) <->
                  (forall i, i / 8 < size / 8 ->
                     Z.testbit (fa (i / 8)) (Z.of_nat (i mod 8))
                     = Z.testbit (fb (i / 8)) (Z.of_nat (i mod 8)))).
  { split.
    - intros H i Hi. rewrite (H _ Hi). reflexivity.
    - intros H j Hj. apply UnsignedByte_eq_bits; [apply Ha | apply Hb |].
      intros k Hk. specialize (H (8 * j + k)).
      divmod8 (8 * j + k).
      replace ((8 * j + k) / 8) with j in H by lia.
      replace ((8 * j + k) mod 8) with k in H by lia.
      apply H. exact Hj. }
  assert (Hlast : Z.land (fa (size / 8)) (LastSegmentMask size)
                  = Z.land (fb (size / 8)) (LastSegmentMask size) <->
                  (forall i, i / 8 = size / 8 -> i mod 8 < size mod 8 ->
                     Z.testbit (fa (i / 8)) (Z.of_nat (i mod 8))
                     = Z.testbit (fb (i / 8)) (Z.of_nat (i mod 8)))).
  { rewrite LastSegmentMask_ones, masked_eq_bits. split.
    - intros H i Hd Hm. rewrite Hd. apply H. exact Hm.
    - intros H k Hk. specialize (H (8 * (size / 8) + k)).
      divmod8 size. divmod8 (8 * (size / 8) + k).
      replace ((8 * (size / 8) + k) / 8) with (size / 8) in H by lia.
      replace ((8 * (size / 8) + k) mod 8) with k in H by lia.
      apply H; [reflexivity | exact Hk]. }
  destruct (existsb _ _) eqn:Efull.
  - split; [discriminate|]. intros H. exfalso.
    apply not_true_iff_false in Efull; [exact Efull|].
    apply existsb_seq_false. intros j Hj.
    apply negb_false_iff, Z.eqb_eq. apply Hfull; [|exact Hj].
    intros i Hi. apply H. divmod8 i. divmod8 size. lia.
  - rewrite existsb_seq_false in Efull.
    assert (Hseg : forall j, j < size / 8 -> fa j = fb j).
    { intros j Hj. apply Z.eqb_eq, negb_false_iff, Efull, Hj. }
    destruct DataSize_cases as [[Hm Hd]|[Hm Hd]]; rewrite Hd.
    + rewrite Hm, Nat.eqb_refl. cbn [negb andb]. split; [intros _|reflexivity].
      intros i Hi. apply Hfull; [exact Hseg|]. divmod8 i. divmod8 size. lia.
    + replace (size / 8 + 1 - 1) with (size / 8) by lia.
      apply Nat.eqb_neq in Hm. rewrite Hm. cbn [negb andb].
      destruct (Z.eqb_spec (Z.land (fa (size / 8)) (LastSegmentMask size))
                           (Z.land (fb (size / 8)) (LastSegmentMask size)))
        as [E|E]; cbn [negb].
      * split; [intros _|reflexivity]. intros i Hi.
        destruct (index_cases i Hi) as [Hlt|[He Hlt]].
        -- apply Hfull; assumption.
        -- apply Hlast; assumption.
      * split; [discriminate|]. intros H. exfalso. apply E, Hlast.
        intros i Hd' Hm'. apply H. divmod8 i. divmod8 size. lia.
Qed.

(** *** The comparisons, bit by bit *)

Lemma operator_eq_bits a b :
  wf size a -> wf size b ->
  operator_eq size a b = true <-> (forall i, i < size -> bit a i = bit b i).
Proof.
  intros Ha Hb. unfold operator_eq, bit.
  apply (segments_agree (segment a) (segment b));
    intros j; eapply segment_range; eassumption.
Qed.

Lemma FullSegmentMask_bit (k : nat) :
  k < 8 -> Z.testbit FullSegmentMask (Z.of_nat k) = true.
Proof.
  intros Hk. change FullSegmentMask with (Z.ones 8).
  apply Z.ones_spec_low. lia.
Qed.

Lemma FullSegmentMask_masked :
  Z.land FullSegmentMask (LastSegmentMask size) = LastSegmentMask size.
Proof.
  rewrite LastSegmentMask_ones. change FullSegmentMask with (Z.ones 8).
  rewrite Z.land_comm, Z.land_ones by lia.
  apply Z.mod_small. divmod8 size. rewrite Z.ones_equiv.
  assert (0 < 2 ^ Z.of_nat (size mod 8))%Z by (apply Z.pow_pos_nonneg; lia).
  assert (2 ^ Z.of_nat (size mod 8) <= 2 ^ 8)%Z
    by (apply Z.pow_le_mono_r; lia).
  lia.
Qed.

Lemma all_bits v :
  wf size v ->
  all size v = true <-> (forall i, i < size -> bit v i = true).
Proof.
  intros Hv.
  pose proof (segments_agree (segment v) (fun _ => FullSegmentMask)) as H.
  cbv beta in H. rewrite FullSegmentMask_masked in H.
  unfold all. rewrite H.
  - unfold bit. split; intros Hb i Hi.
    + rewrite Hb by exact Hi. apply FullSegmentMask_bit. divmod8 i. lia.
    + rewrite Hb by exact Hi. symmetry. apply FullSegmentMask_bit.
      divmod8 i. lia.
  - intros j. eapply segment_range; eassumption.
  - intros _. unfold is_UnsignedByte, FullSegmentMask. lia.
Qed.

Lemma none_bits v :
  wf size v ->
  none size v = true <-> (forall i, i < size -> bit v i = false).
Proof.
  intros Hv.
  pose proof (segments_agree (segment v) (fun _ => 0%Z)) as H.
  cbv beta in H. rewrite Z.land_0_l in H.
  unfold none. rewrite H.
  - unfold bit. split; intros Hb i Hi.
    + rewrite Hb by exact Hi. apply Z.testbit_0_l.
    + rewrite Hb by exact Hi. symmetry. apply Z.testbit_0_l.
  - intros j. eapply segment_range; eassumption.
  - intros _. unfold is_UnsignedByte. lia.
Qed.

(** *** The segment loop of the bitwise operators *)

Lemma for_each_segment_prefix (f : nat -> Z -> Z) (d : list Z) (n : nat) :
  let d' := foldl (fun d i =>
                     <[i := to_UnsignedByte (f i (default 0%Z (d !! i)))]> d)
                  d (seq 0 n) in
  length d' = length d /\
  forall j, d' !! j =
            if decide (j < n /\ j < length d)
            then Some (to_UnsignedByte (f j (default 0%Z (d !! j))))
            else d !! j.
Proof.
  induction n as [|n [IHl IHj]]; cbv zeta.
  - split; [reflexivity|]. intros j.
    destruct (decide _) as [[H _]|_]; [lia | reflexivity].
  - rewrite seq_S, foldl_app. cbn [foldl Nat.add].
    cbv zeta in IHl, IHj. split.
    + rewrite length_insert. exact IHl.
    + intros j. rewrite list_lookup_insert, IHl.
      destruct (decide (n = j /\ n < length d)) as [[-> Hn]|Hn].
      * rewrite IHj.
        destruct (decide (j < j /\ _)) as [[? _]|_]; [lia|].
        destruct (decide (j < S j /\ _)) as [_|?]; [reflexivity | lia].
      * rewrite IHj.
        destruct (decide (j < n /\ _)) as [?|?];
          destruct (decide (j < S n /\ _)) as [?|?];
          try reflexivity; lia.
Qed.

Lemma length_for_each_segment f d :
  length (for_each_segment size f d) = length d.
Proof. apply for_each_segment_prefix. Qed.

Lemma segment_for_each_segment f d j :
  length d = DataSize size -> j < DataSize size ->
  segment (mk (for_each_segment size f d)) j
  = to_UnsignedByte (f j (segment (mk d) j)).
Proof.
  intros Hl Hj. unfold segment, for_each_segment. cbn [_data].
  destruct (for_each_segment_prefix f d (DataSize size)) as [_ ->].
  destruct (decide _) as [_|?]; [reflexivity | lia].
Qed.

Lemma wf_for_each_segment f d :
  length d = DataSize size -> wf size (mk (for_each_segment size f d)).
Proof.
  intros Hl. split; cbn [_data].
  - rewrite length_for_each_segment. exact Hl.
  - apply Forall_lookup_2. intros j x Hx.
    assert (Hj : j < DataSize size).
    { rewrite <- Hl, <- (length_for_each_segment f d).
      eapply lookup_lt_Some. exact Hx. }
    unfold for_each_segment in Hx.
    destruct (for_each_segment_prefix f d (DataSize size)) as [_ Hj'].
    rewrite Hj' in Hx.
    destruct (decide _) as [_|?]; [|lia].
    injection Hx as <-. apply to_UnsignedByte_range.
Qed.

(** *** The bitwise operators, bit by bit *)

Lemma length_zero : length (_data (zero size)) = DataSize size.
Proof. apply length_replicate. Qed.

Lemma wf_operator_not v : wf size (operator_not size v).
Proof. apply wf_for_each_segment, length_zero. Qed.

Lemma wf_operator_and a b : wf size a -> wf size (operator_and size a b).
Proof. intros [Hl _]. apply wf_for_each_segment, Hl. Qed.

Lemma wf_operator_or a b : wf size a -> wf size (operator_or size a b).
Proof. intros [Hl _]. apply wf_for_each_segment, Hl. Qed.

Lemma wf_operator_xor a b : wf size a -> wf size (operator_xor size a b).
Proof. intros [Hl _]. apply wf_for_each_segment, Hl. Qed.

Ltac segment_bit Hi :=
  unfold bit;
  rewrite segment_for_each_segment
    by first [apply index_in_DataSize; exact Hi | apply length_zero | assumption];
  rewrite to_UnsignedByte_testbit
    by (match goal with |- ?n mod 8 < 8 => divmod8 n end; lia).

Lemma bit_operator_not v i :
  i < size -> bit (operator_not size v) i = negb (bit v i).
Proof.
  intros Hi. unfold operator_not. segment_bit Hi.
  apply Z.lnot_spec. lia.
Qed.

Lemma bit_operator_and a b i :
  wf size a -> i < size ->
  bit (operator_and size a b) i = bit a i && bit b i.
Proof.
  intros [Hl _] Hi. unfold operator_and, operator_and_assign.
  segment_bit Hi. apply Z.land_spec.
Qed.

Lemma bit_operator_or a b i :
  wf size a -> i < size ->
  bit (operator_or size a b) i = bit a i || bit b i.
Proof.
  intros [Hl _] Hi. unfold operator_or, operator_or_assign.
  segment_bit Hi. apply Z.lor_spec.
Qed.

Lemma bit_operator_xor a b i :
  wf size a -> i < size ->
  bit (operator_xor size a b) i = xorb (bit a i) (bit b i).
Proof.
  intros [Hl _] Hi. unfold operator_xor, operator_xor_assign.
  segment_bit Hi. apply Z.lxor_spec.
Qed.

(** *** [set] and the constructors, bit by bit *)

Lemma value_shifted_bit (value : bool) (k m : nat) :
  Z.testbit (Z.shiftl (Z.land (Z.b2z value) 1) (Z.of_nat k)) (Z.of_nat m)
  = value && (k =? m).
Proof.
  destruct value; cbn [Z.b2z andb].
  - change (Z.land 1 1) with 1%Z.
    rewrite Z.shiftl_1_l, Z.pow2_bits_eqb by lia.
    destruct (Nat.eqb_spec k m) as [->|Hne].
    + apply Z.eqb_refl.
    + apply Z.eqb_neq. lia.
  - change (Z.land 0 1) with 0%Z. rewrite Z.shiftl_0_l. apply Z.testbit_0_l.
Qed.

(** What [set] does to every bit: the addressed bit is or-ed with
    [value], the others stay. *)
Lemma set_bits v i value :
  wf size v -> i < size ->
  exists v', set v i value = Some v' /\ wf size v' /\
             forall j, j < size ->
                       bit v' j = if decide (j = i) then bit v i || value
                                  else bit v j.
Proof.
  intros Hv Hi. pose proof Hv as [Hl Hr].
  assert (Hseg : i / 8 < length (_data v))
    by (rewrite Hl; apply index_in_DataSize; exact Hi).
  unfold set. rewrite segment_lookup by exact Hseg.
  cbn [mbind option_bind]. eexists. split; [reflexivity|]. split.
  - split; cbn [_data].
    + rewrite length_insert. exact Hl.
    + apply Forall_insert; [exact Hr | apply to_UnsignedByte_range].
  - intros j Hj. unfold bit at 1, segment at 1. cbn [_data].
    destruct (decide (j / 8 = i / 8)) as [Hd|Hd].
    + rewrite Hd, list_lookup_insert_eq by exact Hseg. cbn [default from_option id].
      rewrite to_UnsignedByte_testbit by (divmod8 j; lia).
      rewrite Z.lor_spec, value_shifted_bit, <- Hd.
      fold (bit v j).
      destruct (decide (j = i)) as [->|Hne].
      * rewrite Nat.eqb_refl, andb_true_r. reflexivity.
      * replace (i mod 8 =? j mod 8) with false.
        -- rewrite andb_false_r, orb_false_r. reflexivity.
        -- symmetry. apply Nat.eqb_neq. divmod8 i. divmod8 j. lia.
    + rewrite list_lookup_insert_ne by congruence.
      destruct (decide (j = i)) as [->|_]; [congruence | reflexivity].
Qed.

Lemma wf_zero : wf size (zero size).
Proof.
  split; [apply length_zero|]. apply Forall_replicate.
  unfold is_UnsignedByte. lia.
Qed.

Lemma wf_from_segments segments v :
  from_segments size segments = Some v -> wf size v.
Proof.
  unfold from_segments. destruct (decide _) as [Hl|]; [|discriminate].
  intros [= <-]. split; cbn [_data].
  - rewrite length_fmap. exact Hl.
  - apply Forall_fmap, Forall_true. intros x. apply to_UnsignedByte_range.
Qed.

Lemma wf_from_repeated value : wf size (from_repeated size value).
Proof.
  split; cbn [_data from_repeated].
  - rewrite length_fmap. apply length_seq.
  - apply Forall_fmap, Forall_true. intros x. apply to_UnsignedByte_range.
Qed.

Lemma segment_from_repeated value j :
  j < DataSize size ->
  segment (from_repeated size value) j = to_UnsignedByte value.
Proof.
  intros Hj. unfold segment, from_repeated. cbn [_data].
  rewrite list_lookup_fmap, lookup_seq_lt by exact Hj. reflexivity.
Qed.

End Segments.

(** ** [BoolVector]: what the operations promise *)

Section BoolVectorFacts.

Import BoolVector.

Variable size : nat.
Hypothesis size_nonzero : size <> 0.

(** [set(i, true)] makes bit [i] read as true. *)
Lemma set_true_get v i :
  wf size v -> i < size ->
  exists v', set v i true = Some v' /\ wf size v' /\ get v' i = Some true.
Proof.
  intros Hv Hi. destruct (set_bits size size_nonzero v i true Hv Hi)
    as (v' & Hset & Hv' & Hbits).
  exists v'. split; [exact Hset|]. split; [exact Hv'|].
  rewrite (get_bit size size_nonzero v' i Hv' Hi), (Hbits i Hi).
  destruct (decide (i = i)) as [_|?]; [|congruence].
  rewrite orb_true_r. reflexivity.
Qed.

(** [set(i, value)] leaves every other bit as it was. *)
Lemma set_get_other v i value j :
  wf size v -> i < size -> j < size -> j <> i ->
  exists v', set v i value = Some v' /\ get v' j = get v j.
Proof.
  intros Hv Hi Hj Hne. destruct (set_bits size size_nonzero v i value Hv Hi)
    as (v' & Hset & Hv' & Hbits).
  exists v'. split; [exact Hset|].
  rewrite !(get_bit size size_nonzero) by assumption. rewrite (Hbits j Hj).
  destruct (decide (j = i)); [contradiction | reflexivity].
Qed.

(** [set(i, false)] or-s a zero into the segment: the vector stays as
    it is, whatever bit [i] held. *)
Lemma set_false_unchanged v i :
  wf size v -> i < size -> set v i false = Some v.
Proof.
  intros Hv Hi. pose proof Hv as [Hl Hr].
  assert (Hseg : i / 8 < length (_data v))
    by (rewrite Hl; apply index_in_DataSize; assumption).
  unfold set. rewrite (segment_lookup v) by exact Hseg.
  cbn [mbind option_bind Z.b2z]. change (Z.land 0 1) with 0%Z.
  rewrite Z.shiftl_0_l, Z.lor_0_r.
  rewrite to_UnsignedByte_small by (eapply segment_range; eassumption).
  rewrite list_insert_id by (apply segment_lookup; exact Hseg).
  destruct v; reflexivity.
Qed.

(** Vectors built from segment values that differ only beyond bit
    [size - 1] compare equal. *)
Lemma from_segments_tail_ignored s1 s2 a b :
  from_segments size s1 = Some a -> from_segments size s2 = Some b ->
  (forall i, i < size -> get a i = get b i) ->
  operator_eq size a b = true.
Proof.
  intros Ha%wf_from_segments Hb%wf_from_segments H.
  apply (operator_eq_bits size size_nonzero); [assumption..|].
  intros i Hi. specialize (H i Hi).
  rewrite !(get_bit size size_nonzero) in H by assumption. congruence.
Qed.

End BoolVectorFacts.

(** ** [BoolVector]: the documented properties *)

Import BoolVector.

Create HintDb boolvector.
#[local] Hint Resolve wf_operator_not wf_operator_and wf_operator_or
  wf_operator_xor wf_from_repeated wf_zero : boolvector.

Ltac wf_concrete :=
  split; [reflexivity | repeat constructor; unfold is_UnsignedByte; lia].

Ltac by_bits :=
  match goal with
  | Hs : ?size <> 0 |- operator_eq ?size _ _ = true =>
      apply (operator_eq_bits size Hs); auto 6 with boolvector;
      let i := fresh "i" in let Hi := fresh "Hi" in
      intros i Hi;
      repeat first
        [ rewrite (bit_operator_not size Hs) by exact Hi
        | rewrite (bit_operator_and size Hs) by auto 6 with boolvector
        | rewrite (bit_operator_or size Hs) by auto 6 with boolvector
        | rewrite (bit_operator_xor size Hs) by auto 6 with boolvector ]
  end.

Example operator_eq_tail_bits :
  operator_eq 3 (BoolVector.mk [5%Z]) (BoolVector.mk [253%Z]) = true.
Proof. reflexivity. Qed.

Example operator_not_11 :
  operator_not 11 (BoolVector.mk [5%Z; 1%Z]) = BoolVector.mk [250%Z; 254%Z].
Proof. reflexivity. Qed.

(** C1, at the input on which the code departs from it: in a
    [BoolVector<8>] whose bit 0 is set, [set(0, false)] leaves the
    vector as it was and [operator[]] still reads bit 0 as true. *)
Theorem set_false_keeps_set_bit :
  let v := BoolVector.mk [1%Z] in
  wf 8 v /\ get v 0 = Some true /\
  set v 0 false = Some v /\
  (v' ← set v 0 false; get v' 0) = Some true.
Proof. cbv zeta. split; [wf_concrete|]. repeat split. Qed.

(** C4: [a == b] holds exactly when [a[i] == b[i]] for every [i] below
    [size]; the bits of the last segment beyond [size] play no part, so
    vectors constructed from segment values that differ only there
    compare equal. *)
Theorem operator_eq_iff_bits (size : nat) (a b : BoolVector.t) :
  size <> 0 -> wf size a -> wf size b ->
  (operator_eq size a b = true <->
   (forall i, i < size -> get a i = get b i)) /\
  (forall sa sb a' b',
      from_segments size sa = Some a' -> from_segments size sb = Some b' ->
      (forall i, i < size -> get a' i = get b' i) ->
      operator_eq size a' b' = true).
Proof.
  intros Hs Ha Hb. split.
  - rewrite (operator_eq_bits size Hs a b Ha Hb).
    split; intros H i Hi; specialize (H i Hi);
      rewrite !(get_bit size Hs) in * by assumption; congruence.
  - intros sa sb a' b'. apply (from_segments_tail_ignored size Hs).
Qed.

Lemma operator_eq_iff_bits_witness :
  let a := BoolVector.mk [5%Z] in
  let b := BoolVector.mk [253%Z] in
  (operator_eq 3 a b = true <-> (forall i, i < 3 -> get a i = get b i)) /\
  (forall sa sb a' b',
      from_segments 3 sa = Some a' -> from_segments 3 sb = Some b' ->
      (forall i, i < 3 -> get a' i = get b' i) ->
      operator_eq 3 a' b' = true).
Proof.
  apply (operator_eq_iff_bits 3 (BoolVector.mk [5%Z]) (BoolVector.mk [253%Z]));
    [lia | wf_concrete | wf_concrete].
Defined.

(** C5: [all()] is true exactly when every bit below [size] reads true,
    [none()] exactly when every such bit reads false, and [any()] is the
    negation of [none()]; a vector with the same bits below [size] gives
    the same three answers, whatever its last segment holds beyond. *)
Theorem all_none_any_bits (size : nat) (v : BoolVector.t) :
  size <> 0 -> wf size v ->
  (all size v = true <-> (forall i, i < size -> get v i = Some true)) /\
  (none size v = true <-> (forall i, i < size -> get v i = Some false)) /\
  any size v = negb (none size v) /\
  (forall w, wf size w -> (forall i, i < size -> get v i = get w i) ->
             all size v = all size w /\ none size v = none size w /\
             any size v = any size w).
Proof.
  intros Hs Hv.
  assert (Hall : forall u, wf size u ->
            all size u = true <-> (forall i, i < size -> get u i = Some true)).
  { intros u Hu. rewrite (all_bits size Hs u Hu).
    split; intros H i Hi; specialize (H i Hi);
      rewrite (get_bit size Hs) in * by assumption; congruence. }
  assert (Hnone : forall u, wf size u ->
            none size u = true <-> (forall i, i < size -> get u i = Some false)).
  { intros u Hu. rewrite (none_bits size Hs u Hu).
    split; intros H i Hi; specialize (H i Hi);
      rewrite (get_bit size Hs) in * by assumption; congruence. }
  split; [apply Hall, Hv|]. split; [apply Hnone, Hv|].
  split; [reflexivity|].
  intros w Hw Hvw.
  assert (Ea : all size v = all size w).
  { apply eq_true_iff_eq. rewrite (Hall v Hv), (Hall w Hw).
    split; intros H i Hi; [rewrite <- (Hvw i Hi) | rewrite (Hvw i Hi)];
      apply H, Hi. }
  assert (En : none size v = none size w).
  { apply eq_true_iff_eq. rewrite (Hnone v Hv), (Hnone w Hw).
    split; intros H i Hi; [rewrite <- (Hvw i Hi) | rewrite (Hvw i Hi)];
      apply H, Hi. }
  unfold any. rewrite En. auto.
Qed.

Lemma all_none_any_bits_witness :
  let size := 11 in
  let v := BoolVector.mk [255%Z; 15%Z] in
  (all size v = true <-> (forall i, i < size -> get v i = Some true)) /\
  (none size v = true <-> (forall i, i < size -> get v i = Some false)) /\
  any size v = negb (none size v) /\
  (forall w, wf size w -> (forall i, i < size -> get v i = get w i) ->
             all size v = all size w /\ none size v = none size w /\
             any size v = any size w).
Proof.
  apply (all_none_any_bits 11 (BoolVector.mk [255%Z; 15%Z]));
    [lia | wf_concrete].
Defined.

(** C6: [a == a], and [~~a == a]. *)
Theorem operator_eq_refl_not_involutive (size : nat) (a : BoolVector.t) :
  size <> 0 -> wf size a ->
  operator_eq size a a = true /\
  operator_eq size (operator_not size (operator_not size a)) a = true.
Proof.
  intros Hs Ha. split.
  - apply (operator_eq_bits size Hs a a Ha Ha). reflexivity.
  - by_bits. apply negb_involutive.
Qed.

Lemma operator_eq_refl_not_involutive_witness :
  let a := BoolVector.mk [165%Z; 6%Z] in
  operator_eq 11 a a = true /\
  operator_eq 11 (operator_not 11 (operator_not 11 a)) a = true.
Proof.
  apply (operator_eq_refl_not_involutive 11 (BoolVector.mk [165%Z; 6%Z]));
    [lia | wf_concrete].
Defined.

Ltac bool_cases :=
  repeat match goal with
         | |- context [bit ?v ?i] => destruct (bit v i)
         end;
  reflexivity.

(** C7: [&], [|] and [^] are commutative and associative under [==],
    and [(a ^ a).none()] is true. *)
Theorem bitwise_operators_algebra (size : nat) (a b c : BoolVector.t) :
  size <> 0 -> wf size a -> wf size b -> wf size c ->
  (operator_eq size (operator_and size a b) (operator_and size b a) = true /\
   operator_eq size (operator_or size a b) (operator_or size b a) = true /\
   operator_eq size (operator_xor size a b) (operator_xor size b a) = true) /\
  (operator_eq size (operator_and size (operator_and size a b) c)
                    (operator_and size a (operator_and size b c)) = true /\
   operator_eq size (operator_or size (operator_or size a b) c)
                    (operator_or size a (operator_or size b c)) = true /\
   operator_eq size (operator_xor size (operator_xor size a b) c)
                    (operator_xor size a (operator_xor size b c)) = true) /\
  none size (operator_xor size a a) = true.
Proof.
  intros Hs Ha Hb Hc. repeat split; try (by_bits; bool_cases).
  apply (none_bits size Hs); [auto with boolvector|].
  intros i Hi. rewrite (bit_operator_xor size Hs) by assumption.
  apply xorb_nilpotent.
Qed.

Lemma bitwise_operators_algebra_witness :
  let size := 11 in
  let a := BoolVector.mk [165%Z; 6%Z] in
  let b := BoolVector.mk [60%Z; 251%Z] in
  let c := BoolVector.mk [15%Z; 130%Z] in
  (operator_eq size (operator_and size a b) (operator_and size b a) = true /\
   operator_eq size (operator_or size a b) (operator_or size b a) = true /\
   operator_eq size (operator_xor size a b) (operator_xor size b a) = true) /\
  (operator_eq size (operator_and size (operator_and size a b) c)
                    (operator_and size a (operator_and size b c)) = true /\
   operator_eq size (operator_or size (operator_or size a b) c)
                    (operator_or size a (operator_or size b c)) = true /\
   operator_eq size (operator_xor size (operator_xor size a b) c)
                    (operator_xor size a (operator_xor size b c)) = true) /\
  none size (operator_xor size a a) = true.
Proof.
  apply (bitwise_operators_algebra 11 (BoolVector.mk [165%Z; 6%Z])
           (BoolVector.mk [60%Z; 251%Z]) (BoolVector.mk [15%Z; 130%Z]));
    [lia | wf_concrete | wf_concrete | wf_concrete].
Defined.

(** C9: for [size] other than 1, [BoolVector(value)] exists and every
    bit below [size] reads [value]; so [BoolVector(true).all()] and
    [BoolVector(false).none()] are true. *)
Theorem fill_bits (size : nat) (value : bool) :
  size <> 0 -> size <> 1 ->
  exists v, fill size value = Some v /\
            (forall i, i < size -> get v i = Some value) /\
            (if value then all size v else none size v) = true.
Proof.
  intros Hs H1. unfold fill.
  destruct (decide (size <> 1)) as [_|?]; [|contradiction].
  set (v := from_repeated size _).
  assert (Hv : wf size v) by apply wf_from_repeated.
  assert (Hbit : forall i, i < size -> bit v i = value).
  { intros i Hi. unfold bit, v.
    rewrite segment_from_repeated by (apply index_in_DataSize; assumption).
    assert (i mod 8 < 8) by (divmod8 i; lia).
    rewrite to_UnsignedByte_testbit by assumption.
    destruct value; [eapply FullSegmentMask_bit; eassumption|].
    apply Z.testbit_0_l. }
  exists v. split; [reflexivity|]. split.
  - intros i Hi. rewrite (get_bit size Hs v i Hv Hi), (Hbit i Hi). reflexivity.
  - destruct value.
    + apply (all_bits size Hs v Hv). exact Hbit.
    + apply (none_bits size Hs v Hv). exact Hbit.
Qed.

Lemma fill_bits_witness :
  exists v, fill 11 true = Some v /\
            (forall i, i < 11 -> get v i = Some true) /\
            all 11 v = true.
Proof. apply (fill_bits 11 true); lia. Defined.

(** ** [Math::log]: the floor of the logarithm *)

Section Log.

#[local] Open Scope Z_scope.

Lemma log_loop_floor (fuel : nat) :
  forall base number k,
    2 <= base -> 0 <= number < 2 ^ Z.of_nat fuel -> 0 <= k ->
    base ^ k <= number < base ^ (k + 1) ->
    Math.log_loop fuel base number = k.
Proof.
  induction fuel as [|fuel IH]; intros base number k Hb Hn Hk Hpow.
  - assert (0 < base ^ k) by (apply Z.pow_pos_nonneg; lia).
    change (2 ^ Z.of_nat 0) with 1 in Hn. lia.
  - cbn [Math.log_loop].
    rewrite Nat2Z.inj_succ, Z.pow_succ_r in Hn by lia.
    destruct (Z.eqb_spec (number / base) 0) as [E|E].
    + apply Z.div_small_iff in E; [|lia].
      destruct (Z.eq_dec k 0) as [->|Hk0]; [reflexivity|].
      assert (base ^ 1 <= base ^ k) by (apply Z.pow_le_mono_r; lia).
      rewrite Z.pow_1_r in *. lia.
    + assert (Hge : base <= number).
      { destruct (Z_lt_le_dec number base) as [Hlt|Hge]; [|exact Hge].
        exfalso. apply E, Z.div_small. lia. }
      assert (Hk1 : 1 <= k).
      { destruct (Z.eq_dec k 0) as [->|]; [|lia].
        change (0 + 1) with 1 in Hpow. rewrite Z.pow_1_r in Hpow. lia. }
      replace k with (Z.succ (k - 1)) in Hpow at 1 by lia.
      rewrite Z.pow_succ_r in Hpow by lia.
      replace (k + 1) with (Z.succ k) in Hpow by lia.
      rewrite Z.pow_succ_r in Hpow by lia.
      rewrite (IH base (number / base) (k - 1)); try lia.
      * split; [apply Z.div_pos; lia|].
        apply Z.div_lt_upper_bound; [lia|].
        assert (0 < 2 ^ Z.of_nat fuel) by (apply Z.pow_pos_nonneg; lia).
        nia.
      * replace (k - 1 + 1) with k by lia. split.
        -- apply Z.div_le_lower_bound; lia.
        -- apply Z.div_lt_upper_bound; lia.
Qed.

(** [log base number] is the [k] with
    [base^k <= number < base^(k+1)]. *)
Lemma log_floor base number k :
  2 <= base -> 0 <= k -> base ^ k <= number < base ^ (k + 1) ->
  Math.log base number = k.
Proof.
  intros Hb Hk Hpow. unfold Math.log.
  assert (0 < base ^ k) by (apply Z.pow_pos_nonneg; lia).
  apply log_loop_floor; try assumption.
  split; [lia|].
  rewrite Nat2Z.inj_succ, Z2Nat.id by apply Z.log2_nonneg.
  apply Z.log2_spec. lia.
Qed.

(** Below the base, zero included, the logarithm is 0. *)
Lemma log_small base number :
  0 <= number < base -> Math.log base number = 0.
Proof.
  intros H. unfold Math.log. cbn [Math.log_loop].
  rewrite Z.div_small by exact H. reflexivity.
Qed.

(** The four values the logarithm in base 256 takes on 32-bit numbers. *)
Lemma log_256_UnsignedInt x :
  is_UnsignedInt x ->
  Math.log 256 x =
    if x <? 256 then 0 else if x <? 65536 then 1
    else if x <? 16777216 then 2 else 3.
Proof.
  unfold is_UnsignedInt. change (2 ^ 32) with 4294967296. intros Hx.
  destruct (Z.ltb_spec x 256); [apply log_small; lia|].
  destruct (Z.ltb_spec x 65536); [apply log_floor; cbn; lia|].
  destruct (Z.ltb_spec x 16777216); apply log_floor; cbn; lia.
Qed.

End Log.

(** ** [std::max_element] *)

Lemma max_element_greatest (l : list Z) :
  l <> [] ->
  exists m, MeshTools.max_element l = Some m /\ In m l /\
            forall x, In x l -> (x <= m)%Z.
Proof.
  destruct l as [|first rest]; [congruence | intros _].
  cbn [MeshTools.max_element]. eexists. split; [reflexivity|].
  revert first. induction rest as [|y rest IH]; intros first.
  - cbn. split; [auto|]. intros x [<-|[]]. lia.
  - cbn [foldl].
    destruct (IH (if (first <? y)%Z then y else first)) as [Hin Hmax].
    split.
    + destruct Hin as [Hin|Hin]; [|right; right; exact Hin].
      rewrite <- Hin. destruct (first <? y)%Z; cbn; auto.
    + intros x Hx.
      assert (Hf : (first <= foldl (fun largest x =>
                      if (largest <? x)%Z then x else largest)
                      (if (first <? y)%Z then y else first) rest)%Z).
      { etransitivity; [|apply Hmax; left; reflexivity].
        destruct (Z.ltb_spec first y); lia. }
      assert (Hy : (y <= foldl (fun largest x =>
                      if (largest <? x)%Z then x else largest)
                      (if (first <? y)%Z then y else first) rest)%Z).
      { etransitivity; [|apply Hmax; left; reflexivity].
        destruct (Z.ltb_spec first y); lia. }
      destruct Hx as [<-|[<-|Hx]]; [exact Hf | exact Hy |].
      apply Hmax. right. exact Hx.
Qed.

(** ** Object representations *)

Section Representation.

Import MeshTools.

Variable order : ByteOrder.

Lemma length_le_bytes n x : length (le_bytes n x) = n.
Proof. revert x. induction n; intros x; cbn; [|rewrite IHn]; reflexivity. Qed.

Lemma le_value_le_bytes n x :
  le_value (le_bytes n x) = (x mod 256 ^ Z.of_nat n)%Z.
Proof.
  revert x. induction n as [|n IH]; intros x.
  - cbn. rewrite Z.mod_1_r. reflexivity.
  - cbn [le_bytes le_value]. rewrite IH, Nat2Z.inj_succ, Z.pow_succ_r by lia.
    rewrite Z.rem_mul_r; [reflexivity | lia | apply Z.pow_pos_nonneg; lia].
Qed.

Lemma length_object_representation T x :
  length (object_representation order T x) = sizeof T.
Proof.
  unfold object_representation. destruct order;
    rewrite ?length_rev; apply length_le_bytes.
Qed.

Lemma indexSize_indexType T : indexSize (indexType T) = sizeof T.
Proof. destruct T; reflexivity. Qed.

(** [static_cast<T>] keeps the residue modulo [2^(8*sizeof(T))], and
    those are the bits the object representation holds. *)
Lemma static_cast_mod T x :
  static_cast T x = (x mod 256 ^ Z.of_nat (sizeof T))%Z.
Proof. destruct T; reflexivity. Qed.

(** Reading back the bytes of an object gives the value stored. *)
Lemma read_object_representation T x buffer :
  read_element order (sizeof T)
               (object_representation order T (static_cast T x) ++ buffer) 0
  = static_cast T x.
Proof.
  unfold read_element. rewrite Nat.mul_0_l, drop_0.
  rewrite take_app_length' by (symmetry; apply length_object_representation).
  unfold object_representation.
  destruct order; rewrite ?rev_involutive, le_value_le_bytes, static_cast_mod;
    apply Z.mod_mod; apply Z.pow_nonzero; lia.
Qed.

(** *** The buffer [compress<T>] builds *)

Lemma length_elements T indices :
  length (elements order T indices) = length indices * sizeof T.
Proof.
  unfold elements. induction indices as [|x l IH]; [reflexivity|].
  cbn [fmap list_fmap concat length]. fold (@fmap list _ Z (list Z)).
  rewrite length_app, length_object_representation.
  cbn [fmap] in IH. rewrite IH. lia.
Qed.

Lemma elements_snoc T indices x :
  elements order T (indices ++ [x])
  = elements order T indices
    ++ object_representation order T (static_cast T x).
Proof.
  unfold elements. rewrite fmap_app, concat_app. cbn. rewrite app_nil_r.
  reflexivity.
Qed.

(** After [k] rounds of the loop the first [k] elements are in place
    and the rest of the array is as it was allocated. *)
Lemma compress_loop_prefix T indices k :
  k <= length indices ->
  foldl (fun buffer i =>
           let index := static_cast T (default 0%Z (indices !! i)) in
           memcpy buffer (i * sizeof T) (object_representation order T index))
        (replicate (length indices * sizeof T) 0%Z) (seq 0 k)
  = elements order T (take k indices)
    ++ replicate ((length indices - k) * sizeof T) 0%Z.
Proof.
  induction k as [|k IH]; intros Hk.
  - rewrite Nat.sub_0_r. reflexivity.
  - rewrite seq_S, foldl_app, IH by lia. cbn [foldl Nat.add]. cbv zeta.
    destruct (lookup_lt_is_Some_2 indices k) as [x Hx]; [lia|].
    rewrite Hx, (take_S_r _ _ _ Hx), elements_snoc. cbn [default from_option id].
    unfold memcpy.
    assert (Hoff : k * sizeof T
                   = length (elements order T (take k indices)) + 0).
    { rewrite length_elements, length_take_le; lia. }
    rewrite Hoff, list_inserts_app_r.
    replace (length indices - k) with (S (length indices - S k)) by lia.
    cbn [Nat.mul].
    rewrite replicate_add, list_inserts_0_r, <- app_assoc; [reflexivity|].
    rewrite length_object_representation, length_replicate. reflexivity.
Qed.

Lemma compress_buffer T indices :
  compress order T indices
  = (length indices, indexType T, elements order T indices).
Proof.
  unfold compress. f_equal.
  rewrite compress_loop_prefix by lia.
  rewrite take_ge, Nat.sub_diag, app_nil_r by lia. reflexivity.
Qed.

(** Element [i] of the buffer reads back as index [i], narrowed. *)
Lemma read_element_elements T indices i x :
  indices !! i = Some x ->
  read_element order (sizeof T) (elements order T indices) i
  = static_cast T x.
Proof.
  revert i. induction indices as [|a l IH]; intros i Hi; [discriminate|].
  change (elements order T (a :: l))
    with (object_representation order T (static_cast T a)
          ++ elements order T l).
  destruct i as [|i].
  - injection Hi as ->. apply read_object_representation.
  - cbn in Hi. rewrite <- (IH i Hi). unfold read_element.
    replace (S i * sizeof T)
      with (length (object_representation order T (static_cast T a))
            + i * sizeof T)
      by (rewrite length_object_representation; lia).
    rewrite drop_app_add. reflexivity.
Qed.

Lemma static_cast_fits T x :
  (0 <= x < 256 ^ Z.of_nat (sizeof T))%Z -> static_cast T x = x.
Proof. intros H. rewrite static_cast_mod. apply Z.mod_small, H. Qed.

(** *** The type [compressIndices] chooses *)

#[local] Abbreviation chosen m :=
  (if (m <? 256)%Z then GLubyte
   else if (m <? 65536)%Z then GLushort else GLuint).

Lemma compressIndices_chosen indices m :
  Forall is_UnsignedInt indices ->
  In m indices -> (forall x, In x indices -> (x <= m)%Z) ->
  compressIndices order indices = inr (compress order (chosen m) indices).
Proof.
  intros Hr Hin Hmax.
  destruct (max_element_greatest indices) as (m' & Hm' & Hin' & Hmax').
  { intros ->. destruct Hin. }
  assert (m' = m) as -> by (specialize (Hmax m' Hin'); specialize (Hmax' m Hin); lia).
  assert (Hm : is_UnsignedInt m).
  { rewrite Forall_forall in Hr. apply Hr, list_elem_of_In, Hin. }
  unfold compressIndices. rewrite Hm'.
  replace (to_UnsignedInt m) with m
    by (symmetry; apply Z.mod_small; exact Hm).
  rewrite log_256_UnsignedInt by exact Hm.
  destruct (m <? 256)%Z; [reflexivity|].
  destruct (m <? 65536)%Z; [reflexivity|].
  destruct (m <? 16777216)%Z; reflexivity.
Qed.

Lemma chosen_fits m x :
  (0 <= x <= m)%Z -> is_UnsignedInt m ->
  (0 <= x < 256 ^ Z.of_nat (sizeof (chosen m)))%Z.
Proof.
  unfold is_UnsignedInt. intros Hx Hm.
  destruct (Z.ltb_spec m 256); [cbn; lia|].
  destruct (Z.ltb_spec m 65536); cbn; lia.
Qed.

End Representation.

(** ** [compressIndices]: the documented properties *)

Import MeshTools.

Example compressIndices_300_little :
  compressIndices LittleEndian [300; 2]%Z
  = inr (2, Mesh.UnsignedShort, [44; 1; 2; 0]%Z).
Proof. reflexivity. Qed.

Example compressIndices_300_big :
  compressIndices BigEndian [300; 2]%Z
  = inr (2, Mesh.UnsignedShort, [1; 44; 0; 2]%Z).
Proof. reflexivity. Qed.

Example compressIndices_zero :
  compressIndices LittleEndian [0%Z] = inr (1, Mesh.UnsignedByte, [0%Z]).
Proof. reflexivity. Qed.

Ltac UnsignedInts := repeat constructor; unfold is_UnsignedInt; lia.

Ltac greatest :=
  let x := fresh "x" in
  intros x; cbn [In];
  repeat (let H := fresh in intros [H|H]; [rewrite <- H; lia | revert H]);
  intros [].

(** C2: with [m] the greatest index, the element width is 1 byte for
    [m <= 255] (logarithm 0), 2 bytes for [256 <= m <= 65535]
    (logarithm 1) and 4 bytes from 65536 on (logarithm 2 or 3); [[5]]
    gives width 1 and the buffer [{5}], [[300]] width 2, [[70000]]
    width 4. *)
Theorem compressIndices_width
    (order : ByteOrder) (indices : list Z) (m : Z) :
  Forall is_UnsignedInt indices ->
  In m indices -> (forall x, In x indices -> (x <= m)%Z) ->
  (exists type buffer,
     compressIndices order indices = inr (length indices, type, buffer) /\
     ((m <= 255)%Z -> Math.log 256 m = 0%Z /\ indexSize type = 1) /\
     ((256 <= m <= 65535)%Z -> Math.log 256 m = 1%Z /\ indexSize type = 2) /\
     ((65536 <= m)%Z ->
      (Math.log 256 m = 2%Z \/ Math.log 256 m = 3%Z) /\ indexSize type = 4))
  /\ compressIndices order [5%Z] = inr (1, Mesh.UnsignedByte, [5%Z])
  /\ (exists buffer,
        compressIndices order [300%Z] = inr (1, Mesh.UnsignedShort, buffer))
  /\ (exists buffer,
        compressIndices order [70000%Z] = inr (1, Mesh.UnsignedInt, buffer)).
Proof.
  intros Hr Hin Hmax. split.
  - assert (Hm : is_UnsignedInt m).
    { rewrite Forall_forall in Hr. apply Hr, list_elem_of_In, Hin. }
    rewrite (compressIndices_chosen order indices m Hr Hin Hmax).
    rewrite compress_buffer, (log_256_UnsignedInt m Hm).
    do 2 eexists. split; [reflexivity|].
    destruct (Z.ltb_spec m 256); [cbn; repeat split; intros; lia|].
    destruct (Z.ltb_spec m 65536); [cbn; repeat split; intros; lia|].
    destruct (Z.ltb_spec m 16777216); cbn;
      repeat split; intros; try lia; auto.
  - destruct order; vm_compute; eauto.
Qed.

Lemma compressIndices_width_witness :
  (exists type buffer,
     compressIndices LittleEndian [3; 300; 7]%Z = inr (3, type, buffer) /\
     ((300 <= 255)%Z -> Math.log 256 300 = 0%Z /\ indexSize type = 1) /\
     ((256 <= 300 <= 65535)%Z ->
      Math.log 256 300 = 1%Z /\ indexSize type = 2) /\
     ((65536 <= 300)%Z ->
      (Math.log 256 300 = 2%Z \/ Math.log 256 300 = 3%Z) /\
      indexSize type = 4))
  /\ compressIndices LittleEndian [5%Z] = inr (1, Mesh.UnsignedByte, [5%Z])
  /\ (exists buffer,
        compressIndices LittleEndian [300%Z]
        = inr (1, Mesh.UnsignedShort, buffer))
  /\ (exists buffer,
        compressIndices LittleEndian [70000%Z]
        = inr (1, Mesh.UnsignedInt, buffer)).
Proof.
  apply (compressIndices_width LittleEndian [3; 300; 7]%Z 300%Z);
    [UnsignedInts | cbn; auto | greatest].
Defined.

(** C3: the buffer has [count * elementWidth] bytes, and its [i]-th
    element, read at the reported width, is the [i]-th index. *)
Theorem compressIndices_round_trip (order : ByteOrder) (indices : list Z) :
  indices <> [] -> Forall is_UnsignedInt indices ->
  exists type buffer,
    compressIndices order indices = inr (length indices, type, buffer) /\
    length buffer = length indices * indexSize type /\
    forall i x, indices !! i = Some x ->
                read_element order (indexSize type) buffer i = x.
Proof.
  intros Hne Hr.
  destruct (max_element_greatest indices Hne) as (m & _ & Hin & Hmax).
  assert (Hm : is_UnsignedInt m).
  { rewrite Forall_forall in Hr. apply Hr, list_elem_of_In, Hin. }
  rewrite (compressIndices_chosen order indices m Hr Hin Hmax).
  rewrite compress_buffer. do 2 eexists. split; [reflexivity|].
  rewrite indexSize_indexType. split; [apply length_elements|].
  intros i x Hx. rewrite (read_element_elements order _ indices i x Hx).
  apply static_cast_fits, chosen_fits; [|exact Hm].
  assert (Hxin : In x indices)
    by (apply list_elem_of_In; eapply list_elem_of_lookup_2; exact Hx).
  split; [|apply Hmax, Hxin].
  rewrite Forall_forall in Hr. apply Hr, list_elem_of_In, Hxin.
Qed.

Lemma compressIndices_round_trip_witness :
  exists type buffer,
    compressIndices BigEndian [70000; 3; 65535]%Z = inr (3, type, buffer) /\
    length buffer = 3 * indexSize type /\
    forall i x, [70000; 3; 65535]%Z !! i = Some x ->
                read_element BigEndian (indexSize type) buffer i = x.
Proof.
  apply (compressIndices_round_trip BigEndian [70000; 3; 65535]%Z);
    [discriminate | UnsignedInts].
Defined.

(** On a vector that has an element, spare storage plays no part:
    the result is the one for the sequence of its elements. *)
Lemma compressIndices_vector_elements (order : ByteOrder) (indices : vector) :
  0 < vec_size indices <= length (vec_storage indices) ->
  compressIndices_vector order indices
  = compressIndices order (take (vec_size indices) (vec_storage indices)).
Proof.
  intros Hsize. unfold compressIndices_vector, compressIndices. cbv zeta.
  destruct (take (vec_size indices) (vec_storage indices)) as [|x l] eqn:E.
  - apply (f_equal length) in E. rewrite length_take in E. cbn in E. lia.
  - reflexivity.
Qed.




(** C10: the logarithm in base 256 of a 32-bit value is at most 3, so
    on a non-empty sequence of 32-bit indices the assertion is never
    reached and a result is returned. *)
Theorem compressIndices_returns (order : ByteOrder) (indices : list Z) :
  indices <> [] -> Forall is_UnsignedInt indices ->
  (forall x, is_UnsignedInt x -> (0 <= Math.log 256 x <= 3)%Z) /\
  (forall size, compressIndices order indices <> inl (NoTypeAbleToIndex size)) /\
  exists result, compressIndices order indices = inr result.
Proof.
  intros Hne Hr. split.
  - intros x Hx. rewrite (log_256_UnsignedInt x Hx).
    destruct (x <? 256)%Z; [lia|]. destruct (x <? 65536)%Z; [lia|].
    destruct (x <? 16777216)%Z; lia.
  - destruct (max_element_greatest indices Hne) as (m & _ & Hin & Hmax).
    rewrite (compressIndices_chosen order indices m Hr Hin Hmax).
    split; [discriminate | eexists; reflexivity].
Qed.

Lemma compressIndices_returns_witness :
  (forall x, is_UnsignedInt x -> (0 <= Math.log 256 x <= 3)%Z) /\
  (forall size, compressIndices LittleEndian [4294967295; 0]%Z
                <> inl (NoTypeAbleToIndex size)) /\
  exists result, compressIndices LittleEndian [4294967295; 0]%Z = inr result.
Proof.
  apply (compressIndices_returns LittleEndian [4294967295; 0]%Z);
    [discriminate | UnsignedInts].
Defined.

(** * Further properties of the code *)

(** ** [BoolVector]: comparison *)

Lemma bounded_search (P : nat -> bool) (n : nat) :
  (forall i, i < n -> P i = true) \/ (exists i, i < n /\ P i = false).
Proof.
  induction n as [|n [IH|(i & Hi & HP)]].
  - left. intros i Hi. lia.
  - destruct (P n) eqn:E.
    + left. intros i Hi. destruct (decide (i = n)) as [->|]; [exact E|].
      apply IH. lia.
    + right. exists n. split; [lia | exact E].
  - right. exists i. split; [lia | exact HP].
Qed.

(** X1: [a != b] holds exactly when some bit below [size] differs. *)
Theorem operator_ne_iff_bit_differs (size : nat) (a b : BoolVector.t) :
  size <> 0 -> wf size a -> wf size b ->
  operator_ne size a b = true <->
  (exists i, i < size /\ get a i <> get b i).
Proof.
  intros Hs Ha Hb. unfold operator_ne. rewrite negb_true_iff.
  rewrite <- not_true_iff_false, (operator_eq_bits size Hs a b Ha Hb). split.
  - intros H.
    destruct (bounded_search (fun i => eqb (bit a i) (bit b i)) size)
      as [Hall|(i & Hi & Hd)].
    + exfalso. apply H. intros i Hi. apply eqb_prop, Hall, Hi.
    + exists i. split; [exact Hi|].
      rewrite !(get_bit size Hs) by assumption. intros [= E].
      rewrite E, eqb_reflx in Hd. discriminate.
  - intros (i & Hi & Hd) H. apply Hd.
    rewrite !(get_bit size Hs) by assumption. rewrite (H i Hi). reflexivity.
Qed.

Lemma operator_ne_iff_bit_differs_witness :
  operator_ne 11 (BoolVector.mk [5; 1]%Z) (BoolVector.mk [5; 3]%Z) = true <->
  (exists i, i < 11 /\ get (BoolVector.mk [5; 1]%Z) i
                      <> get (BoolVector.mk [5; 3]%Z) i).
Proof.
  apply (operator_ne_iff_bit_differs 11 (BoolVector.mk [5; 1]%Z)
           (BoolVector.mk [5; 3]%Z)); [lia | wf_concrete | wf_concrete].
Defined.

(** X2: [==] is symmetric and transitive (with C6, an equivalence). *)
Theorem operator_eq_sym_trans (size : nat) (a b c : BoolVector.t) :
  size <> 0 -> wf size a -> wf size b -> wf size c ->
  operator_eq size a b = operator_eq size b a /\
  (operator_eq size a b = true -> operator_eq size b c = true ->
   operator_eq size a c = true).
Proof.
  intros Hs Ha Hb Hc. split.
  - apply eq_true_iff_eq.
    rewrite (operator_eq_bits size Hs a b Ha Hb),
            (operator_eq_bits size Hs b a Hb Ha).
    split; intros H i Hi; symmetry; apply H, Hi.
  - rewrite (operator_eq_bits size Hs a b Ha Hb),
            (operator_eq_bits size Hs b c Hb Hc),
            (operator_eq_bits size Hs a c Ha Hc).
    intros H1 H2 i Hi. rewrite (H1 i Hi). apply H2, Hi.
Qed.

Lemma operator_eq_sym_trans_witness :
  let a := BoolVector.mk [5%Z] in
  let b := BoolVector.mk [253%Z] in
  let c := BoolVector.mk [13%Z] in
  operator_eq 3 a b = operator_eq 3 b a /\
  (operator_eq 3 a b = true -> operator_eq 3 b c = true ->
   operator_eq 3 a c = true).
Proof.
  apply (operator_eq_sym_trans 3 (BoolVector.mk [5%Z]) (BoolVector.mk [253%Z])
           (BoolVector.mk [13%Z])); [lia | wf_concrete..].
Defined.

(** ** [BoolVector]: the constructors *)

Lemma bit_zero (size i : nat) :
  size <> 0 -> i < size -> bit (zero size) i = false.
Proof.
  intros Hs Hi. unfold bit, segment, zero. cbn [_data].
  rewrite lookup_replicate_2 by (apply index_in_DataSize; assumption).
  apply Z.testbit_0_l.
Qed.

(** X3: The default constructor gives a vector all of whose bits read
    false: [none()] holds, [any()] and [all()] do not. *)
Theorem zero_bits (size : nat) :
  size <> 0 ->
  (forall i, i < size -> get (zero size) i = Some false) /\
  none size (zero size) = true /\ any size (zero size) = false /\
  all size (zero size) = false.
Proof.
  intros Hs. assert (Hz : wf size (zero size)) by (apply wf_zero; assumption).
  assert (Hbit : forall i, i < size -> bit (zero size) i = false)
    by (intros i Hi; apply bit_zero; assumption).
  assert (Hnone : none size (zero size) = true)
    by (apply (none_bits size Hs _ Hz); exact Hbit).
  split; [|split; [exact Hnone|split]].
  - intros i Hi. rewrite (get_bit size Hs _ i Hz Hi), (Hbit i Hi). reflexivity.
  - unfold any. rewrite Hnone. reflexivity.
  - apply not_true_iff_false. rewrite (all_bits size Hs _ Hz). intros H.
    specialize (H 0 ltac:(lia)). rewrite Hbit in H by lia. discriminate.
Qed.

Lemma zero_bits_witness :
  (forall i, i < 11 -> get (zero 11) i = Some false) /\
  none 11 (zero 11) = true /\ any 11 (zero 11) = false /\
  all 11 (zero 11) = false.
Proof. apply (zero_bits 11). lia. Defined.

Lemma get_bit_in_array (v : BoolVector.t) (i : nat) :
  i / 8 < length (_data v) -> get v i = Some (bit v i).
Proof.
  intros Hi. unfold get, bit, segment.
  destruct (lookup_lt_is_Some_2 (_data v) (i / 8) Hi) as [s ->].
  cbn [mbind option_bind default from_option id].
  rewrite shift_and_one. reflexivity.
Qed.

Lemma fmap_to_UnsignedByte_id (l : list Z) :
  Forall is_UnsignedByte l -> to_UnsignedByte <$> l = l.
Proof.
  induction 1 as [|x l Hx _ IH]; [reflexivity|].
  cbn [fmap list_fmap]. rewrite (to_UnsignedByte_small x Hx).
  f_equal. exact IH.
Qed.

(** X4: The segment constructor exists exactly for [DataSize] values;
    it stores byte values as they are given, and every bit of the
    storage, the unused ones behind bit [size - 1] too, is the bit
    given for it: bit [i%8] of the value for segment [i/8], for every
    [i] below [8 * DataSize]. *)
Theorem from_segments_bits (size : nat) (segments : list Z) :
  size <> 0 ->
  (from_segments size segments = None <-> length segments <> DataSize size) /\
  (forall v, from_segments size segments = Some v ->
     wf size v /\
     (Forall is_UnsignedByte segments -> _data v = segments) /\
     forall i, i < 8 * DataSize size ->
       get v i = Some (Z.testbit (nth (i / 8) segments 0%Z)
                                 (Z.of_nat (i mod 8)))).
Proof.
  intros Hs. split.
  - unfold from_segments. destruct (decide _); split; congruence.
  - intros v Hv.
    assert (Hwf : wf size v) by (eapply wf_from_segments; eassumption).
    split; [exact Hwf|].
    unfold from_segments in Hv. destruct (decide _) as [Hl|]; [|discriminate].
    injection Hv as <-. cbn [_data]. split; [apply fmap_to_UnsignedByte_id|].
    intros i Hi.
    assert (Hseg : i / 8 < length segments)
      by (rewrite Hl; divmod8 i; lia).
    rewrite get_bit_in_array by (cbn [_data]; rewrite length_fmap; exact Hseg).
    f_equal. unfold bit, segment. cbn [_data].
    rewrite list_lookup_fmap.
    destruct (lookup_lt_is_Some_2 segments (i / 8) Hseg) as [x Hx].
    rewrite Hx. cbn [fmap option_fmap option_map default from_option id].
    rewrite (nth_lookup_Some _ _ 0%Z _ Hx).
    apply to_UnsignedByte_testbit. divmod8 i. lia.
Qed.

Lemma from_segments_bits_witness :
  (from_segments 3 [253]%Z = None <-> length [253]%Z <> DataSize 3) /\
  (forall v, from_segments 3 [253]%Z = Some v ->
     wf 3 v /\
     (Forall is_UnsignedByte [253]%Z -> _data v = [253]%Z) /\
     forall i, i < 8 * DataSize 3 ->
       get v i = Some (Z.testbit (nth (i / 8) [253]%Z 0%Z)
                                 (Z.of_nat (i mod 8)))).
Proof. apply (from_segments_bits 3 [253]%Z). lia. Defined.

(** ** [BoolVector]: [set] *)

(** X5: For a valid index [set] keeps the representation well formed and
    leaves every other bit as it was; [set(i, true)] makes bit [i] read
    true. *)
Theorem set_true_and_others (size : nat) (v : BoolVector.t) (i : nat)
    (value : bool) :
  size <> 0 -> wf size v -> i < size ->
  exists v', set v i value = Some v' /\ wf size v' /\
             (value = true -> get v' i = Some true) /\
             (forall j, j < size -> j <> i -> get v' j = get v j).
Proof.
  intros Hs Hv Hi.
  destruct (set_bits size Hs v i value Hv Hi) as (v' & Hset & Hv' & Hbits).
  exists v'. split; [exact Hset|]. split; [exact Hv'|]. split.
  - intros ->. rewrite (get_bit size Hs v' i Hv' Hi), (Hbits i Hi).
    destruct (decide (i = i)) as [_|?]; [|congruence].
    rewrite orb_true_r. reflexivity.
  - intros j Hj Hne. rewrite !(get_bit size Hs) by assumption.
    rewrite (Hbits j Hj). destruct (decide (j = i)); [contradiction|].
    reflexivity.
Qed.

Lemma set_true_and_others_witness :
  exists v', set (BoolVector.mk [5; 0]%Z) 9 true = Some v' /\ wf 11 v' /\
             (true = true -> get v' 9 = Some true) /\
             (forall j, j < 11 -> j <> 9 ->
                        get v' j = get (BoolVector.mk [5; 0]%Z) j).
Proof.
  apply (set_true_and_others 11 (BoolVector.mk [5; 0]%Z) 9 true);
    [lia | wf_concrete | lia].
Defined.

(** ** [BoolVector]: the bitwise operators *)

(** X6: [~], [&], [|] and [^] act bit by bit on the bits below [size], the
    results are well formed, and the in-place operators give the same
    vectors as the binary ones. *)
Theorem bitwise_operators_get (size : nat) (a b : BoolVector.t) (i : nat) :
  size <> 0 -> wf size a -> wf size b -> i < size ->
  exists x y,
    get a i = Some x /\ get b i = Some y /\
    get (operator_not size a) i = Some (negb x) /\
    get (operator_and size a b) i = Some (x && y) /\
    get (operator_or size a b) i = Some (x || y) /\
    get (operator_xor size a b) i = Some (xorb x y) /\
    wf size (operator_not size a) /\ wf size (operator_and size a b) /\
    wf size (operator_or size a b) /\ wf size (operator_xor size a b) /\
    operator_and_assign size a b = operator_and size a b /\
    operator_or_assign size a b = operator_or size a b /\
    operator_xor_assign size a b = operator_xor size a b.
Proof.
  intros Hs Ha Hb Hi. exists (bit a i), (bit b i).
  rewrite !(get_bit size Hs) by auto with boolvector.
  rewrite (bit_operator_not size Hs), (bit_operator_and size Hs),
    (bit_operator_or size Hs), (bit_operator_xor size Hs) by assumption.
  repeat match goal with |- _ /\ _ => split end;
    try reflexivity; auto with boolvector; destruct a; reflexivity.
Qed.

Lemma bitwise_operators_get_witness :
  let a := BoolVector.mk [165; 6]%Z in
  let b := BoolVector.mk [60; 251]%Z in
  exists x y,
    get a 9 = Some x /\ get b 9 = Some y /\
    get (operator_not 11 a) 9 = Some (negb x) /\
    get (operator_and 11 a b) 9 = Some (x && y) /\
    get (operator_or 11 a b) 9 = Some (x || y) /\
    get (operator_xor 11 a b) 9 = Some (xorb x y) /\
    wf 11 (operator_not 11 a) /\ wf 11 (operator_and 11 a b) /\
    wf 11 (operator_or 11 a b) /\ wf 11 (operator_xor 11 a b) /\
    operator_and_assign 11 a b = operator_and 11 a b /\
    operator_or_assign 11 a b = operator_or 11 a b /\
    operator_xor_assign 11 a b = operator_xor 11 a b.
Proof.
  apply (bitwise_operators_get 11 (BoolVector.mk [165; 6]%Z)
           (BoolVector.mk [60; 251]%Z) 9); [lia | wf_concrete | wf_concrete | lia].
Defined.

Ltac by_bits_zero Hs :=
  by_bits;
  repeat match goal with
         | Hi : ?i < ?size |- context [bit (zero ?size) ?i] =>
             rewrite (bit_zero size i Hs Hi)
         end.

(** X7: Under [==] the operators obey the laws of a Boolean algebra:
    idempotence, absorption, distributivity, De Morgan, the zero vector
    as neutral and absorbing element, and [^] as its own inverse. *)
Theorem bitwise_operators_boolean_algebra (size : nat) (a b c : BoolVector.t) :
  size <> 0 -> wf size a -> wf size b -> wf size c ->
  (operator_eq size (operator_and size a a) a = true /\
   operator_eq size (operator_or size a a) a = true) /\
  (operator_eq size (operator_and size a (operator_or size a b)) a = true /\
   operator_eq size (operator_or size a (operator_and size a b)) a = true) /\
  (operator_eq size (operator_and size a (operator_or size b c))
     (operator_or size (operator_and size a b) (operator_and size a c)) = true /\
   operator_eq size (operator_or size a (operator_and size b c))
     (operator_and size (operator_or size a b) (operator_or size a c)) = true) /\
  (operator_eq size (operator_not size (operator_and size a b))
     (operator_or size (operator_not size a) (operator_not size b)) = true /\
   operator_eq size (operator_not size (operator_or size a b))
     (operator_and size (operator_not size a) (operator_not size b)) = true) /\
  (operator_eq size (operator_or size a (zero size)) a = true /\
   operator_eq size (operator_xor size a (zero size)) a = true /\
   operator_eq size (operator_and size a (zero size)) (zero size) = true) /\
  (operator_eq size (operator_xor size (operator_xor size a b) b) a = true /\
   operator_eq size (operator_xor size a b)
     (operator_and size (operator_or size a b)
                        (operator_not size (operator_and size a b))) = true).
Proof.
  intros Hs Ha Hb Hc. repeat split; by_bits_zero Hs; bool_cases.
Qed.

Lemma bitwise_operators_boolean_algebra_witness :
  let size := 11 in
  let a := BoolVector.mk [165%Z; 6%Z] in
  let b := BoolVector.mk [60%Z; 251%Z] in
  let c := BoolVector.mk [15%Z; 130%Z] in
  (operator_eq size (operator_and size a a) a = true /\
   operator_eq size (operator_or size a a) a = true) /\
  (operator_eq size (operator_and size a (operator_or size a b)) a = true /\
   operator_eq size (operator_or size a (operator_and size a b)) a = true) /\
  (operator_eq size (operator_and size a (operator_or size b c))
     (operator_or size (operator_and size a b) (operator_and size a c)) = true /\
   operator_eq size (operator_or size a (operator_and size b c))
     (operator_and size (operator_or size a b) (operator_or size a c)) = true) /\
  (operator_eq size (operator_not size (operator_and size a b))
     (operator_or size (operator_not size a) (operator_not size b)) = true /\
   operator_eq size (operator_not size (operator_or size a b))
     (operator_and size (operator_not size a) (operator_not size b)) = true) /\
  (operator_eq size (operator_or size a (zero size)) a = true /\
   operator_eq size (operator_xor size a (zero size)) a = true /\
   operator_eq size (operator_and size a (zero size)) (zero size) = true) /\
  (operator_eq size (operator_xor size (operator_xor size a b) b) a = true /\
   operator_eq size (operator_xor size a b)
     (operator_and size (operator_or size a b)
                        (operator_not size (operator_and size a b))) = true).
Proof.
  apply (bitwise_operators_boolean_algebra 11 (BoolVector.mk [165%Z; 6%Z])
           (BoolVector.mk [60%Z; 251%Z]) (BoolVector.mk [15%Z; 130%Z]));
    [lia | wf_concrete | wf_concrete | wf_concrete].
Defined.

(** X8: [==] is a congruence for the bitwise operators: equal operands give
    equal results, whatever the bits beyond [size] hold. *)
Theorem bitwise_operators_respect_eq (size : nat) (a a' b b' : BoolVector.t) :
  size <> 0 -> wf size a -> wf size a' -> wf size b -> wf size b' ->
  operator_eq size a a' = true -> operator_eq size b b' = true ->
  operator_eq size (operator_not size a) (operator_not size a') = true /\
  operator_eq size (operator_and size a b) (operator_and size a' b') = true /\
  operator_eq size (operator_or size a b) (operator_or size a' b') = true /\
  operator_eq size (operator_xor size a b) (operator_xor size a' b') = true.
Proof.
  intros Hs Ha Ha' Hb Hb' Ea Eb.
  rewrite (operator_eq_bits size Hs a a' Ha Ha') in Ea.
  rewrite (operator_eq_bits size Hs b b' Hb Hb') in Eb.
  repeat split; by_bits;
    rewrite ?(Ea _ ltac:(eassumption)), ?(Eb _ ltac:(eassumption));
    reflexivity.
Qed.

Lemma bitwise_operators_respect_eq_witness :
  let a := BoolVector.mk [5%Z] in
  let a' := BoolVector.mk [253%Z] in
  let b := BoolVector.mk [3%Z] in
  let b' := BoolVector.mk [19%Z] in
  operator_eq 3 (operator_not 3 a) (operator_not 3 a') = true /\
  operator_eq 3 (operator_and 3 a b) (operator_and 3 a' b') = true /\
  operator_eq 3 (operator_or 3 a b) (operator_or 3 a' b') = true /\
  operator_eq 3 (operator_xor 3 a b) (operator_xor 3 a' b') = true.
Proof.
  apply (bitwise_operators_respect_eq 3 (BoolVector.mk [5%Z])
           (BoolVector.mk [253%Z]) (BoolVector.mk [3%Z]) (BoolVector.mk [19%Z]));
    [lia | wf_concrete | wf_concrete | wf_concrete | wf_concrete
     | reflexivity | reflexivity].
Defined.

(** ** [BoolVector]: [all()], [none()], [any()] and the operators *)

Lemma forall_bits_and (size : nat) (P Q : nat -> bool) :
  (forall i, i < size -> P i && Q i = true) <->
  (forall i, i < size -> P i = true) /\ (forall i, i < size -> Q i = true).
Proof.
  split.
  - intros H. split; intros i Hi; specialize (H i Hi);
      apply andb_true_iff in H; tauto.
  - intros [HP HQ] i Hi. rewrite HP, HQ by assumption. reflexivity.
Qed.

(** X9: How the aggregates go through the operators: negation swaps
    [all()] and [none()], [all()] distributes over [&], [none()] and
    [any()] over [|]; and a vector for which [all()] holds has [any()]. *)
Theorem aggregates_of_operators (size : nat) (a b : BoolVector.t) :
  size <> 0 -> wf size a -> wf size b ->
  all size (operator_not size a) = none size a /\
  none size (operator_not size a) = all size a /\
  all size (operator_and size a b) = all size a && all size b /\
  none size (operator_or size a b) = none size a && none size b /\
  any size (operator_or size a b) = any size a || any size b /\
  (all size a = true -> any size a = true).
Proof.
  intros Hs Ha Hb.
  assert (Hnot : wf size (operator_not size a)) by auto with boolvector.
  assert (Hand : wf size (operator_and size a b)) by auto with boolvector.
  assert (Hor : wf size (operator_or size a b)) by auto with boolvector.
  assert (E1 : all size (operator_not size a) = none size a).
  { apply eq_true_iff_eq.
    rewrite (all_bits size Hs _ Hnot), (none_bits size Hs _ Ha).
    split; intros H i Hi; specialize (H i Hi);
      rewrite (bit_operator_not size Hs) in * by assumption;
      destruct (bit a i); (reflexivity || discriminate). }
  assert (E2 : none size (operator_not size a) = all size a).
  { apply eq_true_iff_eq.
    rewrite (none_bits size Hs _ Hnot), (all_bits size Hs _ Ha).
    split; intros H i Hi; specialize (H i Hi);
      rewrite (bit_operator_not size Hs) in * by assumption;
      destruct (bit a i); (reflexivity || discriminate). }
  assert (E3 : all size (operator_and size a b) = all size a && all size b).
  { apply eq_true_iff_eq.
    rewrite andb_true_iff, (all_bits size Hs _ Hand),
      (all_bits size Hs _ Ha), (all_bits size Hs _ Hb).
    rewrite <- forall_bits_and.
    split; intros H i Hi; specialize (H i Hi);
      rewrite (bit_operator_and size Hs) in * by assumption; exact H. }
  assert (E4 : none size (operator_or size a b) = none size a && none size b).
  { apply eq_true_iff_eq.
    rewrite andb_true_iff, (none_bits size Hs _ Hor),
      (none_bits size Hs _ Ha), (none_bits size Hs _ Hb). split.
    - intros H. split; intros i Hi; specialize (H i Hi);
        rewrite (bit_operator_or size Hs) in H by assumption;
        apply orb_false_iff in H; tauto.
    - intros [H1 H2] i Hi. rewrite (bit_operator_or size Hs) by assumption.
      rewrite H1, H2 by assumption. reflexivity. }
  repeat match goal with |- _ /\ _ => split end; try assumption.
  - unfold any. rewrite E4. apply negb_andb.
  - intros Hall. unfold any. apply negb_true_iff, not_true_iff_false.
    rewrite (none_bits size Hs _ Ha). intros Hnone.
    rewrite (all_bits size Hs _ Ha) in Hall.
    specialize (Hall 0 ltac:(lia)). specialize (Hnone 0 ltac:(lia)).
    congruence.
Qed.

Lemma aggregates_of_operators_witness :
  let a := BoolVector.mk [255; 7]%Z in
  let b := BoolVector.mk [60; 251]%Z in
  all 11 (operator_not 11 a) = none 11 a /\
  none 11 (operator_not 11 a) = all 11 a /\
  all 11 (operator_and 11 a b) = all 11 a && all 11 b /\
  none 11 (operator_or 11 a b) = none 11 a && none 11 b /\
  any 11 (operator_or 11 a b) = any 11 a || any 11 b /\
  (all 11 a = true -> any 11 a = true).
Proof.
  apply (aggregates_of_operators 11 (BoolVector.mk [255; 7]%Z)
           (BoolVector.mk [60; 251]%Z)); [lia | wf_concrete | wf_concrete].
Defined.

(** ** [compress<T>] and the overload that uploads *)

Lemma Forall_le_bytes n x : Forall is_UnsignedByte (le_bytes n x).
Proof.
  revert x. induction n as [|n IH]; intros x; cbn [le_bytes]; constructor.
  - unfold is_UnsignedByte. change (2 ^ 8)%Z with 256%Z.
    apply Z.mod_pos_bound. lia.
  - apply IH.
Qed.

Lemma Forall_elements order T indices :
  Forall is_UnsignedByte (elements order T indices).
Proof.
  unfold elements. induction indices as [|x l IH]; [constructor|].
  cbn [fmap list_fmap concat]. apply Forall_app. split; [|exact IH].
  unfold object_representation. destruct order.
  - apply Forall_le_bytes.
  - apply Forall_rev, Forall_le_bytes.
Qed.

(** X11: Whatever the type [T] and the indices, [compress<T>] returns their
    number, the index type of [T] and a buffer of
    [indices.size()*sizeof(T)] bytes whose element [i] is index [i]
    modulo [2^(8*sizeof(T))]: an index that does not fit [T] is cut to
    its low bytes. *)
Theorem compress_narrows (order : ByteOrder) (T : GLtype) (indices : list Z) :
  exists buffer,
    compress order T indices = (length indices, indexType T, buffer) /\
    length buffer = length indices * sizeof T /\
    Forall is_UnsignedByte buffer /\
    forall i x, indices !! i = Some x ->
                read_element order (sizeof T) buffer i
                = (x mod 2 ^ (8 * Z.of_nat (sizeof T)))%Z.
Proof.
  exists (elements order T indices).
  split; [apply compress_buffer|]. split; [apply length_elements|].
  split; [apply Forall_elements|].
  intros i x Hx. rewrite (read_element_elements order T indices i x Hx).
  destruct T; reflexivity.
Qed.

(** X12: On a non-empty sequence of 32-bit indices the uploading overload
    tells the mesh the number of indices and the type they are stored
    in, hands [Buffer::setData] exactly the bytes of the compressed
    array (the size it passes is the length of the array, and element
    [i] of it is index [i]), and frees the array last. *)
Theorem compressIndices_mesh_calls {Usage : Type} (order : ByteOrder)
    (usage : Usage) (indices : list Z) :
  indices <> [] -> Forall is_UnsignedInt indices ->
  exists type data,
    compressIndices_mesh order usage indices
    = inr [ Mesh_setIndexCount (length indices);
            Mesh_setIndexBuffer 0 type;
            Buffer_setData (length data) data usage;
            delete_array data ] /\
    length data = length indices * indexSize type /\
    forall i x, indices !! i = Some x ->
                read_element order (indexSize type) data i = x.
Proof.
  intros Hne Hr.
  destruct (max_element_greatest indices Hne) as (m & _ & Hin & Hmax).
  assert (Hm : is_UnsignedInt m).
  { rewrite Forall_forall in Hr. apply Hr, list_elem_of_In, Hin. }
  unfold compressIndices_mesh.
  rewrite (compressIndices_chosen order indices m Hr Hin Hmax).
  rewrite compress_buffer, indexSize_indexType.
  rewrite <- (length_elements order).
  do 2 eexists. split; [reflexivity|split].
  - rewrite indexSize_indexType. apply length_elements.
  - intros i x Hx. rewrite indexSize_indexType.
    rewrite (read_element_elements order _ indices i x Hx).
    apply static_cast_fits, chosen_fits; [|exact Hm].
    assert (Hxin : In x indices)
      by (apply list_elem_of_In; eapply list_elem_of_lookup_2; exact Hx).
    split; [|apply Hmax, Hxin].
    rewrite Forall_forall in Hr. apply Hr, list_elem_of_In, Hxin.
Qed.

Lemma compressIndices_mesh_calls_witness :
  exists type data,
    compressIndices_mesh LittleEndian tt [300; 2; 65535]%Z
    = inr [ Mesh_setIndexCount 3;
            Mesh_setIndexBuffer 0 type;
            Buffer_setData (length data) data tt;
            delete_array data ] /\
    length data = 3 * indexSize type /\
    forall i x, [300; 2; 65535]%Z !! i = Some x ->
                read_element LittleEndian (indexSize type) data i = x.
Proof.
  apply (compressIndices_mesh_calls LittleEndian tt [300; 2; 65535]%Z);
    [discriminate | UnsignedInts].
Defined.

(** ** [Shader]: the sources of a shader *)

Section ShaderSources.

Import Shader.

#[local] Open Scope string_scope.

Lemma length_zero_empty (s : String.string) :
  String.length s = 0 <-> s = "".
Proof. destruct s; cbn; split; congruence. Qed.


Lemma Shader_sources id version type shader :
  Shader id version type = Some shader ->
  _type shader = type /\ _id shader = id /\
  length (_sources shader)
  = match version with Version_None => 0 | _ => 1 end.
Proof. destruct version; intros [= <-]; auto. Qed.



Lemma addSource_fold_length (shader : Shader.t) (added : list String.string) :
  length (_sources (foldl addSource shader added))
  = length (_sources shader)
    + 2 * length (filter (fun s => String.length s <> 0) added).
Proof.
  revert shader. induction added as [|a l IH]; intros shader; cbn [foldl].
  - rewrite filter_nil. cbn. lia.
  - rewrite IH, filter_cons. unfold addSource.
    destruct (Nat.eqb_spec (String.length a) 0) as [E|E]; cbn [negb];
      destruct (decide (String.length a <> 0)); try contradiction.
    + reflexivity.
    + cbn [push_back _sources]. rewrite !length_app. cbn [length]. lia.
Qed.

(** X14: The assertion "no files added" of [Shader::compile] holds for a
    constructed shader exactly when some non-empty source was added to
    it, with or without a [#version] line. *)
Theorem has_files_iff_source_added (id : Z) (version : Version)
    (type : Type') (shader : Shader.t) (added : list String.string) :
  Shader id version type = Some shader ->
  has_files (foldl addSource shader added) = true <->
  (exists source, In source added /\ source <> "").
Proof.
  intros Hnew.
  destruct (Shader_sources id version type shader Hnew) as (_ & _ & Hl).
  unfold has_files. rewrite Nat.ltb_lt, addSource_fold_length, Hl.
  assert (Hfiles : 0 < length (filter (fun s => String.length s <> 0) added)
                   <-> exists source, In source added /\ source <> "").
  { split.
    - destruct (filter _ added) as [|s l] eqn:E; [cbn; lia | intros _].
      assert (Hs : s ∈ filter (fun s => String.length s <> 0) added)
        by (rewrite E; left).
      apply list_elem_of_filter in Hs as [Hne Hin].
      exists s. split; [apply list_elem_of_In, Hin|].
      rewrite <- length_zero_empty. exact Hne.
    - intros (s & Hin & Hne).
      assert (Hs : s ∈ filter (fun s => String.length s <> 0) added).
      { apply list_elem_of_filter. split; [|apply list_elem_of_In, Hin].
        rewrite length_zero_empty. exact Hne. }
      destruct (filter _ added); [inversion Hs | cbn; lia]. }
  rewrite <- Hfiles. destruct version; lia.
Qed.

Lemma has_files_iff_source_added_witness :
  has_files (foldl addSource (Shader.mk Vertex 3 []) [""; "void main() {}"])
  = true <->
  (exists source, In source [""; "void main() {}"] /\ source <> "").
Proof.
  apply (has_files_iff_source_added 3 Version_None Vertex
           (Shader.mk Vertex 3 []) [""; "void main() {}"]).
  reflexivity.
Defined.

End ShaderSources.

(** ** [Shader]: the cached implementation limits *)

Section ShaderLimits.

Import Shader.

Variable isExtensionSupported : Extension -> bool.
Variable glGetIntegerv : GLenum -> Z.

Lemma typeToIndex_inj (type type' : Type') :
  typeToIndex type = typeToIndex type' -> type = type'.
Proof. destruct type, type'; cbn; congruence. Qed.

Lemma typeToIndex_what (type : Type') :
  exists pname, what !! typeToIndex type = Some pname.
Proof. destruct type; eexists; reflexivity. Qed.

(** X15: [maxTextureImageUnits] on a six-element array, one element per
    shader type: it never leaves the array or the table [what[]]; for a
    type the context does not support it returns 0 and touches
    nothing; otherwise it returns the cached value when that is not 0
    and else the value the driver gives for the type's entry of
    [what[]], storing it; the slots of the other types stay; and a
    second call returns the same value from the same array, without a
    query unless the value is 0. *)
Theorem maxTextureImageUnits_cached (cache : list Z) (type : Type') :
  length cache = 6 ->
  exists value cache' queries pname,
    maxTextureImageUnits isExtensionSupported glGetIntegerv cache type
    = Some (value, cache', queries) /\
    what !! typeToIndex type = Some pname /\
    length cache' = 6 /\
    (isTypeSupported isExtensionSupported type = false ->
     value = 0%Z /\ cache' = cache /\ queries = []) /\
    (isTypeSupported isExtensionSupported type = true ->
     cache' !! typeToIndex type = Some value /\
     (cache !! typeToIndex type = Some 0%Z ->
      value = glGetIntegerv pname /\ queries = [pname]) /\
     (cache !! typeToIndex type <> Some 0%Z ->
      cache !! typeToIndex type = Some value /\ cache' = cache /\
      queries = [])) /\
    (forall type', type' <> type ->
       cache' !! typeToIndex type' = cache !! typeToIndex type') /\
    (exists queries',
       maxTextureImageUnits isExtensionSupported glGetIntegerv cache' type
       = Some (value, cache', queries') /\
       (value <> 0%Z -> queries' = [])).
Proof.
  intros Hl.
  destruct (typeToIndex_what type) as [pname Hp].
  assert (Hi : typeToIndex type < length cache)
    by (rewrite Hl; destruct type; cbn; lia).
  destruct (lookup_lt_is_Some_2 cache _ Hi) as [v Hv].
  unfold maxTextureImageUnits.
  destruct (isTypeSupported isExtensionSupported type) eqn:Es; cbn [negb].
  - rewrite Hv. cbn [mbind option_bind].
    destruct (Z.eqb_spec v 0) as [->|Hne].
    + rewrite Hp. cbn [mbind option_bind].
      exists (glGetIntegerv pname),
        (<[typeToIndex type := glGetIntegerv pname]> cache), [pname], pname.
      split; [reflexivity|]. split; [reflexivity|].
      split; [rewrite length_insert; exact Hl|].
      split; [discriminate|]. split; [|split].
      * intros _. split; [apply list_lookup_insert_eq; exact Hi|].
        split; [auto | intros H; contradiction].
      * intros type' Hne. apply list_lookup_insert_ne.
        intros E. apply Hne. symmetry. apply typeToIndex_inj, E.
      * rewrite list_lookup_insert_eq by exact Hi. cbn [mbind option_bind].
        destruct (Z.eqb_spec (glGetIntegerv pname) 0) as [E0|E0].
        -- eexists. rewrite list_insert_insert_eq. split; [reflexivity|].
           intros H. contradiction.
        -- eexists. split; [reflexivity | auto].
    + exists v, cache, [], pname.
      split; [reflexivity|]. split; [exact Hp|]. split; [exact Hl|].
      split; [discriminate|]. split; [|split].
      * intros _. split; [exact Hv|]. split; [|auto].
        intros H. congruence.
      * reflexivity.
      * rewrite Hv. cbn [mbind option_bind].
        destruct (Z.eqb_spec v 0); [contradiction|].
        eexists. split; [reflexivity | auto].
  - exists 0%Z, cache, [], pname.
    split; [reflexivity|]. split; [exact Hp|]. split; [exact Hl|].
    split; [auto|]. split; [discriminate|]. split; [reflexivity|].
    eexists. split; [reflexivity | auto].
Qed.

End ShaderLimits.

Lemma maxTextureImageUnits_cached_witness :
  let supported := fun e => match e with
                            | Shader.tessellation_shader => false
                            | _ => true
                            end in
  let driver := fun _ : Shader.GLenum => 16%Z in
  let cache := [0; 32; 0; 0; 0; 0]%Z in
  let type := Shader.Geometry in
  exists value cache' queries pname,
    Shader.maxTextureImageUnits supported driver cache type
    = Some (value, cache', queries) /\
    Shader.what !! Shader.typeToIndex type = Some pname /\
    length cache' = 6 /\
    (Shader.isTypeSupported supported type = false ->
     value = 0%Z /\ cache' = cache /\ queries = []) /\
    (Shader.isTypeSupported supported type = true ->
     cache' !! Shader.typeToIndex type = Some value /\
     (cache !! Shader.typeToIndex type = Some 0%Z ->
      value = driver pname /\ queries = [pname]) /\
     (cache !! Shader.typeToIndex type <> Some 0%Z ->
      cache !! Shader.typeToIndex type = Some value /\ cache' = cache /\
      queries = [])) /\
    (forall type', type' <> type ->
       cache' !! Shader.typeToIndex type'
       = cache !! Shader.typeToIndex type') /\
    (exists queries',
       Shader.maxTextureImageUnits supported driver cache' type
       = Some (value, cache', queries') /\
       (value <> 0%Z -> queries' = [])).
Proof.
  apply (maxTextureImageUnits_cached
           (fun e => match e with
                     | Shader.tessellation_shader => false
                     | _ => true
                     end)
           (fun _ => 16%Z) [0; 32; 0; 0; 0; 0]%Z Shader.Geometry).
  reflexivity.
Defined.

(** ** [BoolVector]: the debug output *)

Section DebugOutput.

#[local] Open Scope string_scope.

#[local] Abbreviation print_step value :=
  (fun (debug : option Debug.t) (i : nat) =>
     debug ← debug;
     let debug :=
       if negb (i =? 0) && (i mod 8 =? 0)
       then Debug.write debug " " else debug in
     bit ← BoolVector.get value i;
     Some (Debug.write debug (if bit : bool then "1" else "0"))).

#[local] Abbreviation text_of body :=
  (concat (String.list_ascii_of_string ∘ snd <$> body)).

Variable size : nat.
Hypothesis size_nonzero : size <> 0.

(** After [k] rounds of the loop. *)
Lemma print_bits_prefix (value : BoolVector.t) (out : list (bool * String.string))
    (k : nat) :
  wf size value -> k <= size ->
  exists body,
    foldl (print_step value) (Some (Debug.mk false out)) (seq 0 k)
    = Some (Debug.mk false (out ++ body)) /\
    Forall (fun v => v.1 = false) body /\
    length (text_of body) = k + (k - 1) / 8 /\
    (forall i, i < k ->
       text_of body !! (i + i / 8)
       = Some (if bit value i then "1" else "0")%char) /\
    (forall g, 0 < g -> 8 * g < k -> text_of body !! (9 * g - 1) = Some " "%char).
Proof.
  intros Hv. induction k as [|k IH]; intros Hk.
  - exists []. rewrite app_nil_r. cbn. repeat split; try constructor;
      intros; lia.
  - destruct IH as (body & Hfold & Hflag & Hlen & Hbits & Hsp); [lia|].
    replace (S k - 1) with k by lia.
    rewrite seq_S, foldl_app, Hfold. cbn [foldl Nat.add mbind option_bind].
    rewrite (get_bit size size_nonzero value k Hv) by lia.
    cbn [mbind option_bind].
    set (digit := if bit value k then "1" else "0").
    assert (Hdigit : String.list_ascii_of_string digit
                     = [(if bit value k then "1" else "0")%char])
      by (unfold digit; destruct (bit value k); reflexivity).
    divmod8 k. divmod8 (k - 1).
    destruct (negb (k =? 0) && (k mod 8 =? 0)) eqn:Esep.
    + apply andb_true_iff in Esep as [Hk0 Hk8].
      apply negb_true_iff, Nat.eqb_neq in Hk0. apply Nat.eqb_eq in Hk8.
      exists (body ++ [(false, " "); (false, digit)]).
      unfold Debug.write. cbn [Debug.output Debug.SpaceAfterEachValue].
      rewrite <- !app_assoc. split; [reflexivity|].
      split; [apply Forall_app; split; [exact Hflag | repeat constructor]|].
      rewrite fmap_app, concat_app. cbn [fmap list_fmap concat compose snd].
      rewrite Hdigit, app_nil_r. cbn [String.list_ascii_of_string app].
      split; [rewrite length_app; cbn [length]; lia|]. split.
      * intros i Hi. destruct (decide (i = k)) as [->|Hne].
        -- rewrite lookup_app_r by lia.
           replace (k + k / 8 - length (text_of body)) with 1 by lia.
           reflexivity.
        -- divmod8 i. rewrite lookup_app_l by lia. apply Hbits. lia.
      * intros g Hg0 Hg. destruct (decide (8 * g = k)) as [E|Hne].
        -- rewrite lookup_app_r by lia.
           replace (9 * g - 1 - length (text_of body)) with 0 by lia.
           reflexivity.
        -- rewrite lookup_app_l by lia. apply Hsp; lia.
    + assert (Hnosep : k = 0 \/ k mod 8 <> 0).
      { apply andb_false_iff in Esep as [E|E].
        - left. apply negb_false_iff, Nat.eqb_eq in E. exact E.
        - right. apply Nat.eqb_neq in E. exact E. }
      exists (body ++ [(false, digit)]).
      unfold Debug.write. cbn [Debug.output Debug.SpaceAfterEachValue].
      rewrite <- !app_assoc. split; [reflexivity|].
      split; [apply Forall_app; split; [exact Hflag | repeat constructor]|].
      rewrite fmap_app, concat_app. cbn [fmap list_fmap concat compose snd].
      rewrite Hdigit, app_nil_r.
      split; [rewrite length_app; cbn [length]; lia|]. split.
      * intros i Hi. destruct (decide (i = k)) as [->|Hne].
        -- rewrite lookup_app_r by lia.
           replace (k + k / 8 - length (text_of body)) with 0 by lia.
           reflexivity.
        -- divmod8 i. rewrite lookup_app_l by lia. apply Hbits. lia.
      * intros g Hg0 Hg. rewrite lookup_app_l by lia. apply Hsp; lia.
Qed.

End DebugOutput.

(** X10: The output of a [BoolVector] is the value [BoolVector(], then,
    streamed with [SpaceAfterEachValue] off, the bits below [size] as
    [0] and [1] in clusters of eight with one space between clusters,
    then [)]; the flag is on again afterwards.  In the text of the
    clusters bit [i] stands at position [i + i/8]. *)
Theorem BoolVector_operator_shl_output (size : nat) (debug : Debug.t)
    (value : BoolVector.t) :
  size <> 0 -> wf size value ->
  exists body,
    BoolVector_operator_shl size debug value
    = Some (Debug.mk true
              (Debug.output debug
               ++ (Debug.SpaceAfterEachValue debug, "BoolVector("%string)
                  :: body ++ [(false, ")"%string)])) /\
    Forall (fun v => v.1 = false) body /\
    let text := concat (String.list_ascii_of_string ∘ snd <$> body) in
    length text = size + (size - 1) / 8 /\
    (forall i, i < size ->
       exists b, get value i = Some b /\
                 text !! (i + i / 8) = Some (if b then "1" else "0")%char) /\
    (forall g, 0 < g -> 8 * g < size -> text !! (9 * g - 1) = Some " "%char).
Proof.
  intros Hs Hv. unfold BoolVector_operator_shl.
  destruct (print_bits_prefix size Hs value
              (Debug.output debug
               ++ [(Debug.SpaceAfterEachValue debug, "BoolVector("%string)])
              size Hv (Nat.le_refl size))
    as (body & Hfold & Hflag & Hlen & Hbits & Hsp).
  exists body. cbv zeta. cbv zeta in Hfold.
  change (Debug.setFlag (Debug.write debug "BoolVector("%string) false)
    with (Debug.mk false
            (Debug.output debug
             ++ [(Debug.SpaceAfterEachValue debug, "BoolVector("%string)])).
  rewrite Hfold. cbn [mbind option_bind]. split.
  - unfold Debug.write, Debug.setFlag.
    cbn [Debug.output Debug.SpaceAfterEachValue].
    rewrite <- !app_assoc. reflexivity.
  - split; [exact Hflag|]. cbv zeta. split; [exact Hlen|]. split; [|exact Hsp].
    intros i Hi. exists (bit value i).
    split; [apply (get_bit size Hs value i Hv Hi) | apply Hbits, Hi].
Qed.

Lemma BoolVector_operator_shl_output_witness :
  let debug := Debug.mk true [] in
  let value := BoolVector.mk [165; 6]%Z in
  exists body,
    BoolVector_operator_shl 11 debug value
    = Some (Debug.mk true
              (Debug.output debug
               ++ (Debug.SpaceAfterEachValue debug, "BoolVector("%string)
                  :: body ++ [(false, ")"%string)])) /\
    Forall (fun v => v.1 = false) body /\
    let text := concat (String.list_ascii_of_string ∘ snd <$> body) in
    length text = 11 + (11 - 1) / 8 /\
    (forall i, i < 11 ->
       exists b, get value i = Some b /\
                 text !! (i + i / 8) = Some (if b then "1" else "0")%char) /\
    (forall g, 0 < g -> 8 * g < 11 -> text !! (9 * g - 1) = Some " "%char).
Proof.
  apply (BoolVector_operator_shl_output 11 (Debug.mk true [])
           (BoolVector.mk [165; 6]%Z)); [lia | wf_concrete].
Defined.

(** ** [Shader::compile] *)

Section ShaderCompile.

Import Shader.

Variable COMPILE_STATUS : Z -> Z.
Variable INFO_LOG_LENGTH : Z -> Z.
Variable InfoLog : Z -> String.string.

Lemma count_sources_some (shaders : list Shader.t) (maxSourceCount : nat) :
  forallb has_files shaders = true ->
  exists m, count_sources shaders maxSourceCount = Some m /\
            maxSourceCount <= m /\
            Forall (fun shader => length (_sources shader) <= m) shaders.
Proof.
  revert maxSourceCount.
  induction shaders as [|shader shaders IH]; intros m0 H; cbn [count_sources].
  - exists m0. repeat split; [lia | constructor].
  - cbn [forallb] in H. apply andb_true_iff in H as [Hf Hrest].
    rewrite Hf.
    destruct (IH (Nat.max (length (_sources shader)) m0) Hrest)
      as (m & Hm & Hle & Hall).
    exists m. split; [exact Hm|]. split; [lia|].
    constructor; [lia | exact Hall].
Qed.

Lemma count_sources_none (shaders : list Shader.t) (maxSourceCount : nat) :
  forallb has_files shaders = false ->
  count_sources shaders maxSourceCount = None.
Proof.
  revert maxSourceCount.
  induction shaders as [|shader shaders IH]; intros m0 H;
    cbn [forallb count_sources] in *; [discriminate|].
  destruct (has_files shader); [apply IH, H | reflexivity].
Qed.

Lemma collect_some (sources : list String.string) :
  forall (i : nat) (pointers : list (option String.string))
         (sizes : list (option Z)),
    i + length sources <= length pointers ->
    length sizes = length pointers ->
    exists pointers' sizes',
      collect sources i pointers sizes = Some (pointers', sizes') /\
      length pointers' = length pointers /\
      length sizes' = length pointers /\
      take (i + length sources) pointers'
      = take i pointers ++ (Some <$> sources) /\
      take (i + length sources) sizes'
      = take i sizes
        ++ ((fun source => Some (to_GLint (Z.of_nat (String.length source))))
              <$> sources).
Proof.
  induction sources as [|a l IH]; intros i p s Hi Hs; cbn [collect length].
  - exists p, s. rewrite Nat.add_0_r, !app_nil_r. auto.
  - cbn [length] in Hi. unfold store.
    destruct (decide (i < length p)) as [_|?]; [|lia].
    destruct (decide (i < length s)) as [_|?]; [|lia].
    cbn [mbind option_bind].
    destruct (IH (S i) (<[i := Some a]> p)
                (<[i := Some (to_GLint (Z.of_nat (String.length a)))]> s))
      as (p' & s' & Hc & Hlp & Hls & Htp & Hts).
    { rewrite length_insert. lia. }
    { rewrite !length_insert. exact Hs. }
    exists p', s'. rewrite length_insert in Hlp, Hls.
    split; [exact Hc|]. split; [exact Hlp|]. split; [exact Hls|].
    rewrite Nat.add_succ_r, <- Nat.add_succ_l, Htp, Hts.
    assert (Hpi : <[i := Some a]> p !! i = Some (Some a))
      by (apply list_lookup_insert_eq; lia).
    assert (Hsi : <[i := Some (to_GLint (Z.of_nat (String.length a)))]> s !! i
                  = Some (Some (to_GLint (Z.of_nat (String.length a)))))
      by (apply list_lookup_insert_eq; lia).
    rewrite (take_S_r _ _ _ Hpi), (take_S_r _ _ _ Hsi).
    rewrite !take_insert_ge by lia. rewrite <- !app_assoc. auto.
Qed.

Lemma upload_some (shaders : list Shader.t) :
  forall (pointers : list (option String.string)) (sizes : list (option Z)),
    length sizes = length pointers ->
    Forall (fun shader => length (_sources shader) <= length pointers)
           shaders ->
    upload shaders pointers sizes
    = Some ((fun shader =>
               glShaderSource (_id shader) (length (_sources shader))
                 (Some <$> _sources shader)
                 ((fun source =>
                     Some (to_GLint (Z.of_nat (String.length source))))
                    <$> _sources shader)) <$> shaders).
Proof.
  induction shaders as [|shader shaders IH]; intros p s Hs Hall;
    cbn [upload]; [reflexivity|].
  apply Forall_cons in Hall as [Hle Hall].
  destruct (collect_some (_sources shader) 0 p s)
    as (p' & s' & Hc & Hlp & Hls & Htp & Hts); [lia | exact Hs |].
  rewrite Hc. cbn [mbind option_bind fst snd].
  rewrite (IH p' s') by (rewrite ?Hlp, ?Hls; auto).
  cbn [mbind option_bind fmap list_fmap]. cbn [Nat.add] in Htp, Hts.
  rewrite Htp, Hts, !take_0. reflexivity.
Qed.

Lemma info_message_none (shader : Shader.t) :
  info_message INFO_LOG_LENGTH InfoLog shader = None <->
  (INFO_LOG_LENGTH (_id shader) < 0)%Z.
Proof.
  unfold info_message.
  destruct (Z.ltb_spec (INFO_LOG_LENGTH (_id shader)) 0); split;
    intros; (reflexivity || discriminate || lia).
Qed.

Lemma report_outcome (count : nat) (shaders : list Shader.t) :
  forall (i : nat) (allSuccess : bool),
    exists outcome reports,
      report COMPILE_STATUS INFO_LOG_LENGTH InfoLog count shaders i allSuccess
      = (outcome, reports) /\
      Forall (fun e => match e with
                       | Error _ | Warning _ => True
                       | _ => False
                       end) reports /\
      (Forall (fun shader => (0 <= INFO_LOG_LENGTH (_id shader))%Z) shaders ->
       outcome = Returned (allSuccess
                           && forallb (fun shader =>
                                         negb (COMPILE_STATUS (_id shader)
                                               =? 0)%Z) shaders) /\
       length (List.filter (fun e => match e with
                                     | Error _ => true
                                     | _ => false
                                     end) reports)
       = length (List.filter (fun shader =>
                                (COMPILE_STATUS (_id shader) =? 0)%Z)
                             shaders)) /\
      (Exists (fun shader => (INFO_LOG_LENGTH (_id shader) < 0)%Z) shaders ->
       outcome = LengthError).
Proof.
  induction shaders as [|shader shaders IH]; intros i acc;
    cbn [report forallb List.filter].
  - exists (Returned acc), []. split; [reflexivity|]. split; [constructor|].
    split.
    + intros _. rewrite andb_true_r. auto.
    + intros H. inversion H.
  - destruct (info_message INFO_LOG_LENGTH InfoLog shader) as [message|] eqn:E.
    + assert (Hlog : (0 <= INFO_LOG_LENGTH (_id shader))%Z).
      { destruct (Z_lt_le_dec (INFO_LOG_LENGTH (_id shader)) 0) as [Hlt|Hge];
          [|exact Hge].
        apply info_message_none in Hlt. congruence. }
      destruct (IH (S i) (acc && negb (COMPILE_STATUS (_id shader) =? 0)%Z))
        as (outcome & reports & -> & Hmsg & Hret & Hthrow).
      cbv zeta. cbn [fst snd]. do 2 eexists. split; [reflexivity|].
      split; [|split].
      * destruct (COMPILE_STATUS (_id shader) =? 0)%Z;
          [|destruct (negb (String.length message =? 0))];
          cbn [app]; repeat constructor; exact Hmsg.
      * intros Hall. apply Forall_cons in Hall as [_ Hall].
        destruct (Hret Hall) as [-> Hcount].
        split; [rewrite andb_assoc; reflexivity|].
        destruct (COMPILE_STATUS (_id shader) =? 0)%Z;
          [|destruct (negb (String.length message =? 0))];
          cbn [app List.filter length]; congruence.
      * intros Hex. apply Exists_cons in Hex as [Hneg|Hex]; [lia|].
        apply Hthrow, Hex.
    + apply info_message_none in E.
      exists LengthError, []. split; [reflexivity|]. split; [constructor|].
      split; [|auto].
      intros Hall. apply Forall_cons in Hall as [H0 _]. lia.
Qed.

Lemma to_GLint_small (n : Z) : (0 <= n < 2 ^ 31)%Z -> to_GLint n = n.
Proof.
  intros H. unfold to_GLint. change (2 ^ 31)%Z with 2147483648%Z in *.
  change (2 ^ 32)%Z with 4294967296%Z. rewrite Z.mod_small; lia.
Qed.

(** X16: [Shader::compile] ends on its assertion, before any call to
    the driver and before any message, when some shader has no file,
    whatever the driver would answer.  Otherwise it hands the driver,
    shader by shader and in order, exactly the sources of that shader
    with their lengths as [GLint], although all shaders share two
    arrays sized for the longest list; then it has every shader
    compiled; then it prints messages only.  If no log length is
    negative it returns, true exactly when no status is 0, after one
    error for each shader whose status is 0; if one is negative it ends
    with the exception, the sources uploaded and the shaders compiled.
    A length below 2^31 is passed as it is. *)
Theorem compile_uploads_and_reports (shaders : list Shader.t) :
  (forallb has_files shaders = false ->
   compile COMPILE_STATUS INFO_LOG_LENGTH InfoLog shaders
   = (AssertionFailed, [])) /\
  (forallb has_files shaders = true ->
   exists outcome reports,
     compile COMPILE_STATUS INFO_LOG_LENGTH InfoLog shaders
     = (outcome,
        ((fun shader =>
            glShaderSource (_id shader) (length (_sources shader))
              (Some <$> _sources shader)
              ((fun source =>
                  Some (to_GLint (Z.of_nat (String.length source))))
                 <$> _sources shader)) <$> shaders)
        ++ ((fun shader => glCompileShader (_id shader)) <$> shaders)
        ++ reports) /\
     Forall (fun e => match e with
                      | Error _ | Warning _ => True
                      | _ => False
                      end) reports /\
     (Forall (fun shader => (0 <= INFO_LOG_LENGTH (_id shader))%Z) shaders ->
      outcome = Returned (forallb (fun shader =>
                                     negb (COMPILE_STATUS (_id shader) =? 0)%Z)
                                  shaders) /\
      length (List.filter (fun e => match e with
                                    | Error _ => true
                                    | _ => false
                                    end) reports)
      = length (List.filter (fun shader =>
                               (COMPILE_STATUS (_id shader) =? 0)%Z)
                            shaders)) /\
     (Exists (fun shader => (INFO_LOG_LENGTH (_id shader) < 0)%Z) shaders ->
      outcome = LengthError)) /\
  (forall n, (0 <= n < 2 ^ 31)%Z -> to_GLint n = n).
Proof.
  split; [|split]; [intros Hfiles; unfold compile ..| apply to_GLint_small].
  - rewrite (count_sources_none shaders 0 Hfiles). reflexivity.
  - destruct (count_sources_some shaders 0 Hfiles) as (m & -> & _ & Hall).
    rewrite upload_some
      by (rewrite ?length_replicate; first [reflexivity | exact Hall]).
    destruct (report_outcome (length shaders) shaders 1 true)
      as (outcome & reports & -> & Hmsg & Hret & Hthrow).
    cbv zeta. cbn [fst snd andb] in *. exists outcome, reports. auto.
Qed.

End ShaderCompile.

Lemma compile_uploads_and_reports_witness :
  let status := fun id => if (id =? 3)%Z then 0%Z else 1%Z in
  let log_length := fun id => if (id =? 3)%Z then 4%Z else 0%Z in
  let log := fun id => if (id =? 3)%Z then "bad"%string else ""%string in
  let shaders :=
    [ Shader.mk Shader.Vertex 2 ["a"; "b"; "c"; "d"]%string;
      Shader.mk Shader.Fragment 3 ["x"; "yy"]%string ] in
  (forallb Shader.has_files shaders = false ->
   Shader.compile status log_length log shaders
   = (Shader.AssertionFailed, [])) /\
  (forallb Shader.has_files shaders = true ->
   exists outcome reports,
     Shader.compile status log_length log shaders
     = (outcome,
        ((fun shader =>
            Shader.glShaderSource (Shader._id shader)
              (length (Shader._sources shader))
              (Some <$> Shader._sources shader)
              ((fun source =>
                  Some (Shader.to_GLint (Z.of_nat (String.length source))))
                 <$> Shader._sources shader)) <$> shaders)
        ++ ((fun shader => Shader.glCompileShader (Shader._id shader))
              <$> shaders)
        ++ reports) /\
     Forall (fun e => match e with
                      | Shader.Error _ | Shader.Warning _ => True
                      | _ => False
                      end) reports /\
     (Forall (fun shader => (0 <= log_length (Shader._id shader))%Z) shaders ->
      outcome = Shader.Returned
                  (forallb (fun shader =>
                              negb (status (Shader._id shader) =? 0)%Z)
                           shaders) /\
      length (List.filter (fun e => match e with
                                    | Shader.Error _ => true
                                    | _ => false
                                    end) reports)
      = length (List.filter (fun shader =>
                               (status (Shader._id shader) =? 0)%Z)
                            shaders)) /\
     (Exists (fun shader => (log_length (Shader._id shader) < 0)%Z) shaders ->
      outcome = Shader.LengthError)) /\
  (forall n, (0 <= n < 2 ^ 31)%Z -> Shader.to_GLint n = n).
Proof.
  apply (compile_uploads_and_reports
           (fun id => if (id =? 3)%Z then 0%Z else 1%Z)
           (fun id => if (id =? 3)%Z then 4%Z else 0%Z)
           (fun id => if (id =? 3)%Z then "bad"%string else ""%string)
           [ Shader.mk Shader.Vertex 2 ["a"; "b"; "c"; "d"]%string;
             Shader.mk Shader.Fragment 3 ["x"; "yy"]%string ]).
Defined.

Example compile_throws_after_upload :
  Shader.compile (fun _ => 1%Z) (fun _ => (-1)%Z) (fun _ => ""%string)
    [Shader.mk Shader.Vertex 2 ["a"; "b"]%string]
  = (Shader.LengthError,
     [ Shader.glShaderSource 2 2 [Some "a"%string; Some "b"%string]
         [Some 1%Z; Some 1%Z];
       Shader.glCompileShader 2 ]).
Proof. reflexivity. Qed.

(** *** The message of a shader *)

Section ShaderMessage.

Import Shader.

#[local] Infix "+:+" := String.append (at level 60, right associativity).






Variable INFO_LOG_LENGTH : Z -> Z.
Variable InfoLog : Z -> String.string.


End ShaderMessage.

